(** * Job scheduler, service registry and retry helper: a shallow embedding

    This development embeds three pieces of the platform in Rocq and
    proves (or refutes) the behavioural statements made about them:

    - [retryAsync]: the retry helper with exponential backoff of the
      shared error utilities;
    - [ServiceRegistry]: the in-process catalog of service dependencies
      with its per-service circuit breaker;
    - [JobSchedulerService]: the dispatch loop that claims pending jobs,
      routes them to their handlers and promotes delayed jobs.

    Conventions.  JavaScript numbers used as counters, thresholds and
    millisecond timestamps are integers in [Z]; a [Date] is its epoch
    value.  Every clock read ([new Date()], [Date.now()]) is an explicit
    argument of the function that performs it, one argument per read.
    The two [Map]s of the registry are [gmap]s keyed by service name; an
    in-place mutation of a stored object is an [insert] at its key.
    A logger call has no effect on the state; what is kept of one is the
    conversion to a string of a value it interpolates, where that
    conversion can throw. *)

From Equations Require Import Equations.
From Stdlib Require Import ZArith Lia.
From stdpp Require Import base option list sorting strings pretty gmap.

Local Open Scope Z_scope.

(** ** JavaScript values *)

Module Js.

(** Job payloads, service responses and caught values are untyped
    ([any], [unknown]) in the source.  Numbers are integers here; an
    object is a finite map from property names to values. *)
#[local] Unset Elimination Schemes.
Inductive JsValue :=
  | JsUndefined
  | JsNull
  | JsBool (b : bool)
  | JsNum (z : Z)
  | JsStr (s : string)
  | JsArr (items : list JsValue)
  | JsObj (fields : gmap string JsValue).
#[local] Set Elimination Schemes.

(** Truthiness of a value in a condition. *)
Definition truthy (v : JsValue) : bool :=
  match v with
  | JsUndefined | JsNull => false
  | JsBool b => b
  | JsNum z => negb (z =? 0)
  | JsStr s => negb (String.eqb s "")
  | JsArr _ | JsObj _ => true
  end.

(** Property read [v.k] on a value that is neither [null] nor
    [undefined]: a missing property reads as [undefined].  None of the
    property names used below exists on a string, number, boolean or
    array. *)
Definition getProp (v : JsValue) (k : string) : JsValue :=
  match v with
  | JsObj fs => default JsUndefined (fs !! k)
  | _ => JsUndefined
  end.

(** Whether the conversion of a value to a primitive ([String(v)], a
    template literal, the operand of a subtraction) has a result.  An
    object converts through its [toString]: an own [toString] property
    shadows the inherited method and, no value here being a function, is
    not callable; the inherited [valueOf] gives back the object; so the
    conversion throws a [TypeError].  An array converts the items it
    joins. *)
Fixpoint stringifiable (v : JsValue) : bool :=
  match v with
  | JsUndefined | JsNull | JsBool _ | JsNum _ | JsStr _ => true
  | JsArr items =>
      (fix all (l : list JsValue) : bool :=
         match l with
         | [] => true
         | x :: rest => stringifiable x && all rest
         end) items
  | JsObj fields => bool_decide (fields !! "toString" = None)
  end.

(** [Number::toString]: the digits the engine prints for a number (a
    safe integer in decimal, a large number in its shortest form that
    reads back, with an exponent from 1e21 on).  Nothing below depends
    on the digits. *)
Class NumberToString := numberToString : Z -> string.

(** [String(v)], [None] where the conversion throws; an array joins its
    items with commas, reading [null] and [undefined] items as empty. *)
Fixpoint jsString `{NumberToString} (v : JsValue) : option string :=
  match v with
  | JsUndefined => Some "undefined"
  | JsNull => Some "null"
  | JsBool true => Some "true"
  | JsBool false => Some "false"
  | JsNum z => Some (numberToString z)
  | JsStr s => Some s
  | JsArr items =>
      (fix join (l : list JsValue) : option string :=
         let item x :=
           match x with
           | JsUndefined | JsNull => Some ""
           | _ => jsString x
           end in
         match l with
         | [] => Some ""
         | [x] => item x
         | x :: rest =>
             match item x, join rest with
             | Some first, Some others => Some (first +:+ "," +:+ others)
             | _, _ => None
             end
         end) items
  | JsObj fields =>
      if decide (fields !! "toString" = None) then Some "[object Object]"
      else None
  end.

(** [a || b] on values. *)
Definition orElse (a b : JsValue) : JsValue := if truthy a then a else b.

(** [typeof v === 'number']. *)
Definition isNumber (v : JsValue) : bool :=
  match v with JsNum _ => true | _ => false end.

End Js.

(** ** Error utilities and [retryAsync] *)

Module Errors.
Import Js.

(** An instance of [Error]: whether it is a [DomainError], its message,
    and its further properties ([code], [statusCode], [details],
    [response], ...). *)
Record ErrorObject := mkErrorObject {
  domain : bool;
  message : string;
  props : gmap string JsValue
}.

(** A caught value, of type [unknown]: an [Error] instance or any other
    value. *)
Inductive Unknown :=
  | ErrorValue (e : ErrorObject)
  | OtherValue (v : JsValue).

(** [new DomainError(message, code, statusCode, details)]; an
    [undefined] status code takes the default 400. *)
Definition DomainError (msg code : string) (statusCode details : JsValue)
    : ErrorObject :=
  {| domain := true;
     message := msg;
     props :=
       <["code" := JsStr code]>
         (<["statusCode" := match statusCode with
                            | JsUndefined => JsNum 400
                            | v => v
                            end]>
            (<["details" := details]> ∅)) |}.

Definition isError (error : Unknown) : bool :=
  match error with ErrorValue _ => true | OtherValue _ => false end.

Definition isDomainError (error : Unknown) : bool :=
  match error with ErrorValue e => domain e | OtherValue _ => false end.

(** ['k' in error] for the property names tested below, none of which
    is inherited from a prototype. *)
Definition hasProp (k : string) (error : Unknown) : bool :=
  match error with
  | ErrorValue e => bool_decide (is_Some (props e !! k))
  | OtherValue (JsObj fs) => bool_decide (is_Some (fs !! k))
  | OtherValue _ => false
  end.

(** [error.k] on a caught value that is an object. *)
Definition propOf (k : string) (error : Unknown) : JsValue :=
  match error with
  | ErrorValue e => default JsUndefined (props e !! k)
  | OtherValue v => getProp v k
  end.

(** [error && typeof error === 'object']. *)
Definition isObject (error : Unknown) : bool :=
  match error with
  | ErrorValue _ => true
  | OtherValue (JsObj _) | OtherValue (JsArr _) => true
  | OtherValue _ => false
  end.

(** [isAxiosError(error)]. *)
Definition isAxiosError (error : Unknown) : bool :=
  isError error && (hasProp "response" error || hasProp "code" error).

(** The outcome of evaluating an expression: a value, or a thrown
    value. *)
Inductive Completion (A : Type) :=
  | Normal (a : A)
  | Throw (error : Unknown).
Arguments Normal {A} a.
Arguments Throw {A} error.

#[global] Instance Completion_ret : MRet Completion := fun A a => Normal a.
#[global] Instance Completion_bind : MBind Completion := fun A B f m =>
  match m with Normal a => f a | Throw error => Throw error end.

(** The [TypeError] of a conversion to a primitive that has no result;
    the message text is the engine's. *)
Definition cannotConvert : Unknown :=
  ErrorValue {| domain := false;
                message := "Cannot convert object to primitive value";
                props := ∅ |}.

(** [String(v)] as an expression. *)
Definition stringOf `{NumberToString} (v : JsValue) : Completion string :=
  match jsString v with
  | Some s => Normal s
  | None => Throw cannotConvert
  end.

(** [getErrorMessage(error)]. *)
Definition getErrorMessage `{NumberToString} (error : Unknown)
    : Completion string :=
  match error with
  | OtherValue (JsStr s) => Normal s
  | ErrorValue e => Normal (message e)
  | OtherValue (JsObj fs) =>
      match fs !! "message" with
      | Some m => stringOf m
      | None => Normal "An unknown error occurred"
      end
  | OtherValue _ => Normal "An unknown error occurred"
  end.

(** [error.response?.status]. *)
Definition responseStatus (error : Unknown) : JsValue :=
  match propOf "response" error with
  | JsUndefined | JsNull => JsUndefined
  | response => getProp response "status"
  end.

(** [getStatusCode(error)]. *)
Definition getStatusCode (error : Unknown) : JsValue :=
  if isDomainError error then propOf "statusCode" error
  else if isAxiosError error && truthy (responseStatus error) then
    responseStatus error
  else if isObject error && hasProp "statusCode" error
          && isNumber (propOf "statusCode" error) then
    propOf "statusCode" error
  else JsNum 500.

(** [isPrismaError(error)]. *)
Definition isPrismaError (error : Unknown) : bool :=
  isError error && hasProp "code" error.

(** [getErrorCode(error)]; [undefined] when the value carries no code. *)
Definition getErrorCode `{NumberToString} (error : Unknown)
    : Completion JsValue :=
  if isDomainError error then Normal (propOf "code" error)
  else if isPrismaError error then Normal (propOf "code" error)
  else if isObject error && hasProp "code" error then
    code ← stringOf (propOf "code" error);
    mret (JsStr code)
  else Normal JsUndefined.

(** [new DomainError(message, code, statusCode, details)] for arguments
    of any runtime type: an [undefined] code takes the default
    ['DOMAIN_ERROR'], an [undefined] status code the default 400. *)
Definition newDomainError (msg : string) (code statusCode details : JsValue)
    : ErrorObject :=
  {| domain := true;
     message := msg;
     props :=
       <["code" := match code with
                   | JsUndefined => JsStr "DOMAIN_ERROR"
                   | v => v
                   end]>
         (<["statusCode" := match statusCode with
                            | JsUndefined => JsNum 400
                            | v => v
                            end]>
            (<["details" := details]> ∅)) |}.

(** [interface ErrorDetails]. *)
Record ErrorDetails := mkErrorDetails {
  detailsMessage : string;
  detailsCode : JsValue;
  detailsStatusCode : JsValue;
  detailsDetails : JsValue;
  detailsStack : JsValue
}.

(** [toErrorDetails(error, includeStack)]; the properties of the object
    literal are evaluated in order. *)
Definition toErrorDetails `{NumberToString} (error : Unknown)
    (includeStack : bool) : Completion ErrorDetails :=
  msg ← getErrorMessage error;
  code ← getErrorCode error;
  mret {| detailsMessage := msg;
          detailsCode := code;
          detailsStatusCode := getStatusCode error;
          detailsDetails :=
            if isDomainError error then propOf "details" error
            else JsUndefined;
          detailsStack :=
            if includeStack && isError error then propOf "stack" error
            else JsUndefined |}.

(** What a [throw new DomainError(...)] statement throws: the new error,
    or what the evaluation of its arguments threw. *)
Definition thrown (argument : Completion ErrorObject) : Unknown :=
  match argument with
  | Normal e => ErrorValue e
  | Throw error => error
  end.

(** The result of awaiting a promise: resolved with a value or rejected
    with a caught value. *)
Inductive Settled (T : Type) :=
  | Resolved (value : T)
  | Rejected (error : Unknown).
Arguments Resolved {T} value.
Arguments Rejected {T} error.

(** [withErrorHandling(fn, logger, context)]. *)
Definition withErrorHandling `{NumberToString} {S T : Type}
    (fn : S -> Settled T * S) (context : option string)
    : S -> Settled T * S := fun s =>
  match fn s with
  | (Resolved value, s') => (Resolved value, s')
  | (Rejected error, s') =>
      (Rejected
         (thrown (
            msg ← getErrorMessage error;
            code ← getErrorCode error;
            let statusCode := getStatusCode error in
            originalError ← getErrorMessage error;
            mret (newDomainError msg
                    (orElse code (JsStr "OPERATION_FAILED")) statusCode
                    (JsObj (<["context" :=
                                from_option JsStr JsUndefined context]>
                              (<["originalError" := JsStr originalError]>
                                 ∅)))))),
       s')
  end.

(** *** [retryAsync] *)

(** What [retryAsync] does besides settling: invocations of [fn] and
    [setTimeout] waits, in program order. *)
Inductive RetryEvent :=
  | Called
  | Slept (delayMs : Z).

#[global] Instance RetryEvent_eq_dec : EqDecision RetryEvent.
Proof. solve_decision. Defined.

(** The events of a run of invocations with one wait between two
    consecutive ones: invocation, wait, invocation, ..., invocation. *)
Fixpoint spaced (waits : list Z) : list RetryEvent :=
  match waits with
  | [] => [Called]
  | d :: rest => Called :: Slept d :: spaced rest
  end.

(** The [options] argument; [maxDelayMs] is optional. *)
Record RetryOptions := mkOptions {
  maxRetries : Z;
  baseDelayMs : Z;
  maxDelayMs : option Z
}.

Section Retry.
Context `{NumberToString} {S T : Type}.
(** [fn]: invoked on the state of the world, it settles and leaves a new
    state. *)
Variable fn : S -> Settled T * S.
Variable options : RetryOptions.
Variable context : option string.

(** [maxDelayMs = 30000] of the destructuring. *)
Definition maxDelay : Z := default 30000 (maxDelayMs options).

(** [Math.min(baseDelayMs * Math.pow(2, attempt), maxDelayMs)], in exact
    arithmetic. *)
Definition delayMs (attempt : Z) : Z :=
  Z.min (baseDelayMs options * 2 ^ attempt) maxDelay.

(** When the doubles of the source give [delayMs attempt] its exact
    value: the product is a finite double, or it overflows upwards and
    the minimum is [maxDelayMs].  (For a base delay of zero the product
    with an overflown power is [NaN], for a negative one [-Infinity].) *)
Definition exactProduct (attempt : Z) : Prop :=
  0 < baseDelayMs options
  \/ (attempt < 1024
      /\ Z.abs (baseDelayMs options) * 2 ^ attempt < 2 ^ 1024).

(** The [throw] after the loop. *)
Definition exhausted (lastError : Unknown) : Unknown :=
  thrown (
    msg ← getErrorMessage lastError;
    mret (DomainError msg "RETRY_EXHAUSTED" (getStatusCode lastError)
            (JsObj (<["context" := from_option JsStr JsUndefined context]>
                      (<["attempts" := JsNum (maxRetries options + 1)]>
                         ∅))))).

(** The [for] loop from a given value of [attempt], with the last caught
    error, the state of the world and the events so far. *)
Equations? retryFrom (attempt : Z) (lastError : Unknown) (s : S)
    (log : list RetryEvent) : Settled T * S * list RetryEvent
  by wf (Z.to_nat (maxRetries options + 1 - attempt)) lt :=
  retryFrom attempt lastError s log
    with decide (attempt <= maxRetries options) => {
    | right _ := (Rejected (exhausted lastError), s, log);
    | left _ with fn s => {
      | (Resolved value, s') := (Resolved value, s', log ++ [Called]);
      | (Rejected error, s') :=
          retryFrom (attempt + 1) error s'
            (log ++ Called ::
               (if decide (attempt < maxRetries options)
                then [Slept (delayMs attempt)] else [])) } }.
Proof. lia. Qed.

(** [retryAsync(fn, options, logger, context)]. *)
Definition retryAsync (s : S) : Settled T * S * list RetryEvent :=
  retryFrom 0 (OtherValue JsUndefined) s [].

(** The state of the world after [k] invocations of [fn] in a row. *)
Definition stateAfter (k : nat) (s : S) : S :=
  Nat.iter k (fun s0 => (fn s0).2) s.

(** The events of [k] invocations in a row, the first with index
    [attempt], and the waits of the loop between them. *)
Definition attempts (attempt : Z) (k : nat) : list RetryEvent :=
  match k with
  | O => []
  | Datatypes.S k' => spaced (delayMs <$> seqZ attempt (Z.of_nat k'))
  end.

End Retry.

(** The waits of a run, in order. *)
Definition delays (log : list RetryEvent) : list Z :=
  omap (fun e => match e with Slept d => Some d | Called => None end) log.

(** The number of invocations of [fn] in a run. *)
Definition invocations (log : list RetryEvent) : Z :=
  Z.of_nat (length (filter (fun e => e = Called) log)).

(** *** Sample runs

    An operation that counts its invocations and always rejects, retried
    three times from a base delay of one second; the same operation
    under a negative retry budget; an operation that rejects with an
    object whose message has no conversion to a string. *)

(** A printer of numbers in decimal, as the engine prints safe
    integers. *)
Definition printDecimal : NumberToString := fun z => pretty z.

Definition alwaysRejects : nat -> Settled unit * nat := fun calls =>
  (Rejected (ErrorValue {| domain := false; message := "connection refused";
                           props := ∅ |}),
   Datatypes.S calls).

Definition threeRetries : RetryOptions :=
  {| maxRetries := 3; baseDelayMs := 1000; maxDelayMs := None |}.

Definition negativeRetries : RetryOptions :=
  {| maxRetries := -2; baseDelayMs := 1000; maxDelayMs := None |}.

Definition noRetries : RetryOptions :=
  {| maxRetries := 0; baseDelayMs := 1000; maxDelayMs := None |}.

Definition unreadable : Unknown :=
  OtherValue (JsObj {["message" := JsObj {["toString" := JsNull]}]}).

Definition rejectsUnreadable : nat -> Settled unit * nat := fun calls =>
  (Rejected unreadable, Datatypes.S calls).

(** *** Statement put to the test

    "An operation that fails on every invocation is invoked exactly
    [maxRetries + 1] times and then a permanent error (code
    [RETRY_EXHAUSTED]) is raised", read at one run. *)
Definition fails_after_all_attempts `{NumberToString} {S T : Type}
    (fn : S -> Settled T * S) (options : RetryOptions)
    (context : option string) (s : S) : Prop :=
  (forall s0, exists e s1, fn s0 = (Rejected e, s1)) ->
  invocations (retryAsync fn options context s).2 = maxRetries options + 1
  /\ exists e,
       (retryAsync fn options context s).1.1 = Rejected (ErrorValue e)
       /\ props e !! "code" = Some (JsStr "RETRY_EXHAUSTED").

End Errors.

(** ** Service registry and circuit breaker *)

Module Registry.

Inductive ServiceStatus := HEALTHY | DEGRADED | UNHEALTHY | UNKNOWN.

Inductive ServiceCircuitState := CLOSED | OPEN | HALF_OPEN.

#[global] Instance ServiceStatus_eq_dec : EqDecision ServiceStatus.
Proof. solve_decision. Defined.

#[global] Instance ServiceCircuitState_eq_dec : EqDecision ServiceCircuitState.
Proof. solve_decision. Defined.

(** [ServiceInfo]; [metadata] is an opaque bag of key/value pairs. *)
Record ServiceInfo := mkServiceInfo {
  name : string;
  url : string;
  version : option string;
  status : ServiceStatus;
  lastCheck : Z;
  consecutiveFailures : Z;
  metadata : option (list (string * string))
}.

Record CircuitBreakerConfig := mkConfig {
  failureThreshold : Z;
  successThreshold : Z;
  timeout : Z
}.

Definition _DEFAULT_CIRCUIT_CONFIG : CircuitBreakerConfig :=
  {| failureThreshold := 5; successThreshold := 2; timeout := 30000 |}.

Record CircuitBreakerState := mkCircuit {
  state : ServiceCircuitState;
  failures : Z;
  successes : Z;
  lastFailureTime : option Z;
  nextRetryTime : option Z
}.

(** The fields of the [ServiceRegistry] object that the calls below read
    or write. *)
Record ServiceRegistry := mkRegistry {
  services : gmap string ServiceInfo;
  circuitBreakers : gmap string CircuitBreakerState;
  circuitConfig : CircuitBreakerConfig
}.

Definition set_services (f : gmap string ServiceInfo -> gmap string ServiceInfo)
    (r : ServiceRegistry) : ServiceRegistry :=
  {| services := f (services r);
     circuitBreakers := circuitBreakers r;
     circuitConfig := circuitConfig r |}.

Definition set_circuitBreakers
    (f : gmap string CircuitBreakerState -> gmap string CircuitBreakerState)
    (r : ServiceRegistry) : ServiceRegistry :=
  {| services := services r;
     circuitBreakers := f (circuitBreakers r);
     circuitConfig := circuitConfig r |}.

(** [new ServiceRegistry()] with the three configuration values already
    parsed to integers. *)
Definition newRegistry (cfg : CircuitBreakerConfig) : ServiceRegistry :=
  {| services := ∅; circuitBreakers := ∅; circuitConfig := cfg |}.

(** [register(name, url, metadata)]; [now] is the [new Date()] stored in
    [lastCheck]. *)
Definition register (n u : string) (md : option (list (string * string)))
    (now : Z) (r : ServiceRegistry) : ServiceRegistry :=
  set_circuitBreakers
    (insert n {| state := CLOSED; failures := 0; successes := 0;
                 lastFailureTime := None; nextRetryTime := None |})
    (set_services
       (insert n {| name := n; url := u; version := None; status := UNKNOWN;
                    lastCheck := now; consecutiveFailures := 0;
                    metadata := md |})
       r).

(** [getServiceUrl(name)]: the returned URL ([None] is [null]) and the
    registry after the call.  [now] is the clock read of the half-open
    test. *)
Definition getServiceUrl (n : string) (now : Z) (r : ServiceRegistry)
    : option string * ServiceRegistry :=
  match services r !! n with
  | None => (None, r)
  | Some service =>
      match circuitBreakers r !! n with
      | Some circuit =>
          if decide (state circuit = OPEN) then
            match nextRetryTime circuit with
            | Some retry =>
                if retry <=? now then
                  (Some (url service),
                   set_circuitBreakers
                     (insert n {| state := HALF_OPEN;
                                  failures := failures circuit;
                                  successes := successes circuit;
                                  lastFailureTime := lastFailureTime circuit;
                                  nextRetryTime := nextRetryTime circuit |})
                     r)
                else (None, r)
            | None => (None, r)
            end
          else (Some (url service), r)
      | None => (Some (url service), r)
      end
  end.

Definition getService (n : string) (r : ServiceRegistry) : option ServiceInfo :=
  services r !! n.

Definition getCircuitState (n : string) (r : ServiceRegistry)
    : option ServiceCircuitState :=
  state <$> circuitBreakers r !! n.

(** The circuit-object part of [recordSuccess]. *)
Definition successCircuit (cfg : CircuitBreakerConfig)
    (circuit : CircuitBreakerState) : CircuitBreakerState :=
  let c1 := {| state := state circuit; failures := 0;
               successes := successes circuit + 1;
               lastFailureTime := lastFailureTime circuit;
               nextRetryTime := nextRetryTime circuit |} in
  if decide (state c1 = HALF_OPEN) then
    if successThreshold cfg <=? successes c1 then
      {| state := CLOSED; failures := failures c1; successes := 0;
         lastFailureTime := lastFailureTime c1;
         nextRetryTime := nextRetryTime c1 |}
    else c1
  else c1.

(** The service-entry part of [recordSuccess]. *)
Definition successService (now : Z) (service : ServiceInfo) : ServiceInfo :=
  {| name := name service; url := url service; version := version service;
     status := HEALTHY; lastCheck := now; consecutiveFailures := 0;
     metadata := metadata service |}.

(** [recordSuccess(name)]; [now] is the [new Date()] stored in
    [lastCheck]. *)
Definition recordSuccess (n : string) (now : Z) (r : ServiceRegistry)
    : ServiceRegistry :=
  match circuitBreakers r !! n with
  | None => r
  | Some circuit =>
      let r1 :=
        set_circuitBreakers (insert n (successCircuit (circuitConfig r) circuit)) r in
      match services r1 !! n with
      | Some service => set_services (insert n (successService now service)) r1
      | None => r1
      end
  end.

(** [tripCircuit(name, circuit)]; [tTrip] is its [Date.now()]. *)
Definition tripCircuit (cfg : CircuitBreakerConfig) (tTrip : Z)
    (circuit : CircuitBreakerState) : CircuitBreakerState :=
  {| state := OPEN; failures := failures circuit;
     successes := successes circuit;
     lastFailureTime := lastFailureTime circuit;
     nextRetryTime := Some (tTrip + timeout cfg) |}.

(** The circuit-object part of [recordFailure]; [tFail] is the
    [new Date()] stored in [lastFailureTime]. *)
Definition failureCircuit (cfg : CircuitBreakerConfig) (tFail tTrip : Z)
    (circuit : CircuitBreakerState) : CircuitBreakerState :=
  let c1 := {| state := state circuit; failures := failures circuit + 1;
               successes := 0; lastFailureTime := Some tFail;
               nextRetryTime := nextRetryTime circuit |} in
  if decide (state c1 = HALF_OPEN) then tripCircuit cfg tTrip c1
  else if decide (state c1 = CLOSED) then
    if failureThreshold cfg <=? failures c1 then tripCircuit cfg tTrip c1
    else c1
  else c1.

(** The service-entry part of [recordFailure]; [st] is the circuit state
    after the circuit-object part. *)
Definition failureService (st : ServiceCircuitState) (tCheck : Z)
    (service : ServiceInfo) : ServiceInfo :=
  {| name := name service; url := url service; version := version service;
     status := if decide (st = OPEN) then UNHEALTHY else DEGRADED;
     lastCheck := tCheck;
     consecutiveFailures := consecutiveFailures service + 1;
     metadata := metadata service |}.

(** The three clock reads of one [recordFailure] call, in program order. *)
Record FailureClock := mkClock {
  atFailure : Z;   (* new Date() for lastFailureTime *)
  atTrip : Z;      (* Date.now() inside tripCircuit *)
  atCheck : Z      (* new Date() for lastCheck *)
}.

(** [recordFailure(name)]. *)
Definition recordFailure (n : string) (clk : FailureClock)
    (r : ServiceRegistry) : ServiceRegistry :=
  match circuitBreakers r !! n with
  | None => r
  | Some circuit =>
      let circuit' :=
        failureCircuit (circuitConfig r) (atFailure clk) (atTrip clk) circuit in
      let r1 := set_circuitBreakers (insert n circuit') r in
      match services r1 !! n with
      | Some service =>
          set_services
            (insert n (failureService (state circuit') (atCheck clk) service)) r1
      | None => r1
      end
  end.

(** A run of consecutive [recordFailure(name)] calls, one clock per call. *)
Definition recordFailures (n : string) (clks : list FailureClock)
    (r : ServiceRegistry) : ServiceRegistry :=
  foldl (fun acc clk => recordFailure n clk acc) r clks.

(** *** Runs of successes, the health summary and the health-check loop *)

(** A run of consecutive [recordSuccess(name)] calls, one clock read per
    call. *)
Definition recordSuccesses (n : string) (nows : list Z)
    (r : ServiceRegistry) : ServiceRegistry :=
  foldl (fun acc now => recordSuccess n now acc) r nows.

(** [getAllServices()].  The entries come in the order of the map's
    keys; the source lists them in insertion order. *)
Definition getAllServices (r : ServiceRegistry) : list ServiceInfo :=
  (map_to_list (services r)).*2.

(** [services.filter((s) => s.status === st).length]. *)
Definition countStatus (st : ServiceStatus) (entries : list ServiceInfo) : Z :=
  Z.of_nat (length (filter (fun s => status s = st) entries)).

Record HealthSummary := mkSummary {
  total : Z;
  healthy : Z;
  degraded : Z;
  unhealthy : Z;
  summaryServices : list ServiceInfo
}.

(** [getHealthSummary()]. *)
Definition getHealthSummary (r : ServiceRegistry) : HealthSummary :=
  let entries := getAllServices r in
  {| total := Z.of_nat (length entries);
     healthy := countStatus HEALTHY entries;
     degraded := countStatus DEGRADED entries;
     unhealthy := countStatus UNHEALTHY entries;
     summaryServices := entries |}.

(** What one [fetch] of a health endpoint comes to: a response with
    [ok], a response without, or a rejection (service unavailable or
    timed out). *)
Inductive ProbeOutcome := ProbeOk | ProbeNotOk | ProbeRejected.

(** One turn of the loop of [checkAllServices]: what the network
    answers to a [fetch] of a URL while the turn lasts, and the clock
    reads of the bookkeeping call that follows the answer. *)
Record Turn := mkTurn {
  fetch : string -> ProbeOutcome;
  clock : FailureClock
}.

(** The body of the loop of [checkAllServices] for one entry. *)
Definition checkService (turn : Turn) (entry : string * ServiceInfo)
    (r : ServiceRegistry) : ServiceRegistry :=
  match fetch turn (url entry.2 +:+ "/health") with
  | ProbeOk => recordSuccess entry.1 (atCheck (clock turn)) r
  | ProbeNotOk | ProbeRejected => recordFailure entry.1 (clock turn) r
  end.

(** [checkAllServices()]: the entries are read once, then probed one
    after the other, each in its own turn.  [order] is the iteration
    order of the [services] map, the registered names in the order of
    their first registration, which the [gmap] does not record. *)
Definition checkAllServices (order : list string) (turns : list Turn)
    (r : ServiceRegistry) : ServiceRegistry :=
  foldl (fun acc slot =>
           match services r !! slot.1 with
           | Some service => checkService slot.2 (slot.1, service) acc
           | None => acc
           end)
    r (zip order turns).

(** Two registries that hold the same entry and the same circuit for a
    name, under the same configuration. *)
Definition agreeAt (n : string) (r r' : ServiceRegistry) : Prop :=
  services r !! n = services r' !! n
  /\ circuitBreakers r !! n = circuitBreakers r' !! n
  /\ circuitConfig r = circuitConfig r'.

(** *** Core services *)

(** The [coreServices] table of [registerCoreServices]: name, environment
    key and default port. *)
Definition coreServices : list (string * string * Z) :=
  [ ("controls", "CONTROLS_SERVICE_URL", 3001);
    ("audit", "AUDIT_SERVICE_URL", 3002);
    ("frameworks", "FRAMEWORKS_SERVICE_URL", 3003);
    ("policies", "POLICIES_SERVICE_URL", 3004);
    ("tprm", "TPRM_SERVICE_URL", 3005);
    ("trust", "TRUST_SERVICE_URL", 3006) ].

(** [process.env[envKey] || `http://localhost:${defaultPort}`]. *)
Definition coreUrl (env : gmap string string) (envKey : string)
    (defaultPort : Z) : string :=
  match env !! envKey with
  | Some u => if String.eqb u "" then "http://localhost:" +:+ pretty defaultPort
              else u
  | None => "http://localhost:" +:+ pretty defaultPort
  end.

(** [registerCoreServices()]; [clock] gives the clock read of the
    [register] call made for a name. *)
Definition registerCoreServices (env : gmap string string)
    (clock : string -> Z) (r : ServiceRegistry) : ServiceRegistry :=
  foldl (fun acc svc =>
           register svc.1.1 (coreUrl env svc.1.2 svc.2) None (clock svc.1.1) acc)
    r coreServices.

(** *** Sample registries

    A registry with the default configuration and one service,
    ["reports"], registered at time 0, and the states it reaches. *)

Definition clockAt (t : Z) : FailureClock :=
  {| atFailure := t; atTrip := t; atCheck := t |}.

Definition reportsRegistry : ServiceRegistry :=
  register "reports" "http://localhost:3007" None 0
    (newRegistry _DEFAULT_CIRCUIT_CONFIG).

(** Five failures at times 1..5: the circuit is open until 30005. *)
Definition reportsOpen : ServiceRegistry :=
  recordFailures "reports" (clockAt <$> [1; 2; 3; 4; 5]) reportsRegistry.

(** A lookup after the cooldown: the circuit is half-open. *)
Definition reportsHalfOpen : ServiceRegistry :=
  (getServiceUrl "reports" 40000 reportsOpen).2.

(** The same registry after a second service, ["billing"], was
    registered at time 7 while the circuit of ["reports"] was open. *)
Definition twoServices : ServiceRegistry :=
  register "billing" "http://localhost:3008" None 7 reportsOpen.

(** A turn in which every fetch is answered with [ok], and one in which
    every fetch is rejected, at a given time. *)
Definition answeredAt (t : Z) : Turn :=
  {| fetch := fun _ => ProbeOk; clock := clockAt t |}.

Definition rejectedAt (t : Z) : Turn :=
  {| fetch := fun _ => ProbeRejected; clock := clockAt t |}.

(** *** Statements put to the test

    Two sentences of the design notes, read at one call; each is refuted
    on a sample registry below. *)

(** "A single failure in half-open re-opens the circuit with a fresh
    cooldown and resets the failure streak." *)
Definition reopens_and_resets_streak (n : string) (clk : FailureClock)
    (r : ServiceRegistry) : Prop :=
  forall c,
    circuitBreakers r !! n = Some c ->
    state c = HALF_OPEN ->
    exists c',
      circuitBreakers (recordFailure n clk r) !! n = Some c'
      /\ state c' = OPEN
      /\ nextRetryTime c' = Some (atTrip clk + timeout (circuitConfig r))
      /\ failures c' = 0.

(** "A [recordSuccess] call while open, before [nextRetryTime], has no
    effect": circuit state, counters and the status fields of the service
    entry are unchanged. *)
Definition success_while_open_has_no_effect (n : string) (now : Z)
    (r : ServiceRegistry) : Prop :=
  forall c retry,
    circuitBreakers r !! n = Some c ->
    state c = OPEN ->
    nextRetryTime c = Some retry ->
    now < retry ->
    circuitBreakers (recordSuccess n now r) !! n = Some c
    /\ (status <$> services (recordSuccess n now r) !! n)
       = (status <$> services r !! n)
    /\ (consecutiveFailures <$> services (recordSuccess n now r) !! n)
       = (consecutiveFailures <$> services r !! n).

End Registry.

(** ** Job scheduler *)

Module Scheduler.
Import Js.

(** *** Errors and outcomes *)

(** A thrown [Error]: its [message] and [stack]. *)
Record JsError := mkError { message : string; stack : option string }.

(** The result of awaiting a promise: it resolved to a value or rejected
    with an error. *)
Inductive Outcome (A : Type) :=
  | Returned (a : A)
  | Thrown (e : JsError).
Arguments Returned {A} a.
Arguments Thrown {A} e.

#[global] Instance Outcome_ret : MRet Outcome := fun A a => Returned a.
#[global] Instance Outcome_bind : MBind Outcome := fun A B f m =>
  match m with Returned a => f a | Thrown e => Thrown e end.

(** [try { body } catch (error) { log; throw error; }]: the outcome of
    the body, unchanged. *)
Definition rethrow {A} (body : Outcome A) : Outcome A :=
  match body with Returned a => Returned a | Thrown e => Thrown e end.

Definition TypeError (msg : string) : JsError :=
  {| message := msg; stack := None |}.

(** [const { k1, k2, ... } = v] and [v.k]: reading a property of [null] or
    [undefined] throws a [TypeError]; the message text is the engine's. *)
Definition requireObjectCoercible (v : JsValue) : Outcome unit :=
  match v with
  | JsUndefined => Thrown (TypeError "Cannot read properties of undefined")
  | JsNull => Thrown (TypeError "Cannot read properties of null")
  | _ => Returned tt
  end.

(** A value interpolated in a template literal ([`... ${v}`]) or
    subtracted from a number is converted to a primitive first; where
    that conversion has no result it throws a [TypeError], whose message
    text is the engine's. *)
Definition requirePrimitive (v : JsValue) : Outcome unit :=
  if stringifiable v then Returned tt
  else Thrown (TypeError "Cannot convert object to primitive value").

(** [for (const x of v)]: arrays yield their items, strings their
    characters, anything else is not iterable. *)
Definition iterate (v : JsValue) : Outcome (list JsValue) :=
  match v with
  | JsArr items => Returned items
  | JsStr s => Returned ((fun c => JsStr (String c "")) <$> String.list_ascii_of_string s)
  | _ => Thrown (TypeError "value is not iterable")
  end.

(** Own enumerable properties copied by an object spread [...v]: the
    properties of an object, the items of an array and the characters of
    a string under their indices, nothing for any other value. *)
Definition spread (v : JsValue) : gmap string JsValue :=
  match v with
  | JsObj fs => fs
  | JsArr items => list_to_map (imap (fun i x => (pretty i, x)) items)
  | JsStr s =>
      list_to_map
        (imap (fun i c => (pretty i, JsStr (String c "")))
           (String.list_ascii_of_string s))
  | _ => ∅
  end.

(** *** Job results *)

Module JobResult.
(** [interface JobResult]: the three declared properties and the open
    index signature. *)
Record t := mk {
  status : string;
  isMockMode : option bool;
  mockModeReason : option string;
  extra : list (string * JsValue)
}.
End JobResult.

(** A result without the mock-mode tag. *)
Definition result (st : string) (props : list (string * JsValue)) : JobResult.t :=
  {| JobResult.status := st; JobResult.isMockMode := None;
     JobResult.mockModeReason := None; JobResult.extra := props |}.

(** A result tagged [isMockMode: true] with its [mockModeReason]. *)
Definition mockResult (st : string) (props : list (string * JsValue))
    (reason : string) : JobResult.t :=
  {| JobResult.status := st; JobResult.isMockMode := Some true;
     JobResult.mockModeReason := Some reason; JobResult.extra := props |}.

(** *** Injected services

    Each optional constructor argument is [None] when the service was not
    injected ([null]).  A service is the methods the scheduler calls on
    it; a call is modelled by the outcome of awaiting it. *)

Record RetentionService := mkRetention {
  (* listPolicies(organizationId, { status: RetentionPolicyStatus.ACTIVE }) *)
  listPolicies : JsValue -> Outcome JsValue;
  (* runPolicy(organizationId, policyId, { dryRun: false }) *)
  runPolicy : JsValue -> JsValue -> Outcome JsValue
}.

Record WebhooksService := mkWebhooks {
  (* retryDelivery(organizationId, webhookId, deliveryId) and
     triggerEvent(organizationId, event, payload) *)
  retryDelivery : JsValue -> JsValue -> JsValue -> Outcome JsValue;
  triggerEvent : JsValue -> JsValue -> JsValue -> Outcome JsValue
}.

Record Services := mkServices {
  (* collectorsService.run(collectorId, organizationId, userId) *)
  collectorsService : option (JsValue -> JsValue -> string -> Outcome JsValue);
  (* emailService.sendEmail({ to, subject, html, text }) *)
  emailService : option (JsValue -> JsValue -> JsValue -> JsValue -> Outcome JsValue);
  (* injected, never called by the scheduler *)
  notificationsService : option unit;
  (* scheduledNotificationsService.runScheduledNotifications() *)
  scheduledNotificationsService : option (Outcome JsValue);
  (* jiraService.syncNow(organizationId, mappingId) *)
  jiraService : option (JsValue -> JsValue -> Outcome JsValue);
  (* serviceNowService.syncNow(organizationId, mappingId) *)
  serviceNowService : option (JsValue -> JsValue -> Outcome JsValue);
  (* exportsService.processExportJob(exportId, organizationId) *)
  exportsService : option (JsValue -> JsValue -> Outcome JsValue);
  (* reportsService.generateReport(organizationId, userId, dto) *)
  reportsService : option (JsValue -> string -> JsValue -> Outcome JsValue);
  retentionService : option RetentionService;
  webhooksService : option WebhooksService;
  (* sessionService.cleanupExpiredSessions() *)
  sessionService : option (Outcome JsValue);
  (* prisma.auditLog.deleteMany: retention in days, optional
     organization filter; resolves to the deleted count *)
  auditLogDeleteMany : JsValue -> option JsValue -> Outcome JsValue;
  (* prisma.$executeRaw, the three statements in order *)
  executeRaw : nat -> Outcome unit
}.

(** *** Job handlers

    Each handler that logs a property of its payload does so right after
    the destructuring, before it tests its service. *)

Definition runEvidenceCollector (svc : Services) (data : JsValue)
    : Outcome JobResult.t :=
  requireObjectCoercible data;;
  let collectorId := getProp data "collectorId" in
  let organizationId := getProp data "organizationId" in
  (* `Running evidence collector ${collectorId}` *)
  requirePrimitive collectorId;;
  match collectorsService svc with
  | None =>
      Returned (mockResult "completed" [("collectorId", collectorId)]
        "CollectorsService not injected - ensure CollectorsModule is imported")
  | Some run =>
      rethrow (
        r ← run collectorId organizationId "system-scheduler";
        mret (result "completed" [("collectorId", collectorId); ("result", r)]))
  end.

Definition sendScheduledNotifications (svc : Services) (_data : JsValue)
    : Outcome JobResult.t :=
  match scheduledNotificationsService svc with
  | None =>
      Returned (mockResult "completed" []
        "ScheduledNotificationsService not injected")
  | Some runScheduledNotifications =>
      rethrow (runScheduledNotifications;; mret (result "completed" []))
  end.

Definition sendEmail (svc : Services) (data : JsValue) : Outcome JobResult.t :=
  requireObjectCoercible data;;
  let to := getProp data "to" in
  let subject := getProp data "subject" in
  let html := getProp data "html" in
  let text := getProp data "text" in
  (* `Sending email to ${to}` *)
  requirePrimitive to;;
  match emailService svc with
  | None =>
      Returned (mockResult "sent" [("to", to)] "EmailService not injected")
  | Some send =>
      rethrow (send to subject html text;; mret (result "sent" [("to", to)]))
  end.

Definition syncJira (svc : Services) (data : JsValue) : Outcome JobResult.t :=
  requireObjectCoercible data;;
  let mappingId := getProp data "mappingId" in
  let organizationId := getProp data "organizationId" in
  (* `Syncing Jira mapping ${mappingId}` *)
  requirePrimitive mappingId;;
  match jiraService svc with
  | None =>
      Returned (mockResult "synced" [("mappingId", mappingId)]
        "JiraService not injected - ensure JiraModule is imported")
  | Some syncNow =>
      rethrow (syncNow organizationId mappingId;;
               mret (result "synced" [("mappingId", mappingId)]))
  end.

Definition syncServiceNow (svc : Services) (data : JsValue)
    : Outcome JobResult.t :=
  requireObjectCoercible data;;
  let mappingId := getProp data "mappingId" in
  let organizationId := getProp data "organizationId" in
  (* `Syncing ServiceNow mapping ${mappingId}` *)
  requirePrimitive mappingId;;
  match serviceNowService svc with
  | None =>
      Returned (mockResult "synced" [("mappingId", mappingId)]
        "ServiceNowService not injected - ensure ServiceNowModule is imported")
  | Some syncNow =>
      rethrow (syncNow organizationId mappingId;;
               mret (result "synced" [("mappingId", mappingId)]))
  end.

Definition generateExport (svc : Services) (data : JsValue)
    : Outcome JobResult.t :=
  requireObjectCoercible data;;
  let exportId := getProp data "exportId" in
  let organizationId := getProp data "organizationId" in
  (* `Generating export ${exportId}` *)
  requirePrimitive exportId;;
  match exportsService svc with
  | None =>
      Returned (mockResult "generated" [("exportId", exportId)]
        "ExportsService not injected")
  | Some processExportJob =>
      rethrow (processExportJob exportId organizationId;;
               mret (result "generated" [("exportId", exportId)]))
  end.

Definition generateReport (svc : Services) (data : JsValue)
    : Outcome JobResult.t :=
  requireObjectCoercible data;;
  let reportType := getProp data "reportType" in
  let organizationId := getProp data "organizationId" in
  let parameters := getProp data "parameters" in
  (* `Generating report ${reportType}` *)
  requirePrimitive reportType;;
  match reportsService svc with
  | None =>
      Returned (mockResult "generated" [("reportType", reportType)]
        "ReportsService not injected")
  | Some generate =>
      rethrow (
        (* { reportType, ...parameters }: a spread property wins *)
        let dto := JsObj (spread parameters ∪ {["reportType" := reportType]}) in
        r ← generate organizationId "system-scheduler" dto;
        requireObjectCoercible r;;
        mret (result "generated"
                [("reportType", reportType); ("filename", getProp r "filename")]))
  end.

Definition cleanupExpiredSessions (svc : Services) (_data : JsValue)
    : Outcome JobResult.t :=
  match sessionService svc with
  | None =>
      Returned (mockResult "completed" [("deletedCount", JsNum 0)]
        "SessionService not injected")
  | Some cleanup =>
      rethrow (
        deletedCount ← cleanup;
        (* `Cleaned up ${deletedCount} expired sessions` *)
        requirePrimitive deletedCount;;
        mret (result "completed" [("deletedCount", deletedCount)]))
  end.

Definition cleanupOldAuditLogs (svc : Services) (data : JsValue)
    : Outcome JobResult.t :=
  requireObjectCoercible data;;
  let retentionDays :=
    match getProp data "retentionDays" with
    | JsUndefined => JsNum 365
    | v => v
    end in
  let organizationId := getProp data "organizationId" in
  (* cutoffDate.getDate() - retentionDays *)
  requirePrimitive retentionDays;;
  count ← auditLogDeleteMany svc retentionDays
            (if truthy organizationId then Some organizationId else None);
  (* `Cleaned up ${result.count} old audit logs (retention: ...)` *)
  requirePrimitive count;;
  mret (result "completed"
          [("deletedCount", count); ("retentionDays", retentionDays)]).

(** The loop of [runRetentionPolicies] over [policies.data || []]. *)
Fixpoint runPolicies (rs : RetentionService) (organizationId : JsValue)
    (policies : list JsValue) : Outcome (list JsValue) :=
  match policies with
  | [] => Returned []
  | policy :: rest =>
      requireObjectCoercible policy;;
      r ← runPolicy rs organizationId (getProp policy "id");
      results ← runPolicies rs organizationId rest;
      mret (r :: results)
  end.

Definition runRetentionPolicies (svc : Services) (data : JsValue)
    : Outcome JobResult.t :=
  requireObjectCoercible data;;
  let organizationId := getProp data "organizationId" in
  match retentionService svc with
  | None =>
      Returned (mockResult "completed" [] "RetentionService not injected")
  | Some rs =>
      rethrow (
        policies ← listPolicies rs organizationId;
        requireObjectCoercible policies;;
        let listed := getProp policies "data" in
        items ← (if truthy listed then iterate listed else Returned []);
        results ← runPolicies rs organizationId items;
        mret (result "completed"
                [("policiesExecuted", JsNum (Z.of_nat (length results)));
                 ("results", JsArr results)]))
  end.

Definition refreshSearchIndexes (svc : Services) (data : JsValue)
    : Outcome JobResult.t :=
  requireObjectCoercible data;;
  match executeRaw svc 0%nat;; executeRaw svc 1%nat;; executeRaw svc 2%nat with
  | Returned _ => Returned (result "completed" [])
  | Thrown error =>
      Returned (result "completed" [("warning", JsStr (message error))])
  end.

Definition deliverWebhook (svc : Services) (data : JsValue)
    : Outcome JobResult.t :=
  requireObjectCoercible data;;
  let deliveryId := getProp data "deliveryId" in
  let event := getProp data "event" in
  let payload := getProp data "payload" in
  (* `Delivering webhook ${deliveryId || webhookId}` *)
  requirePrimitive (orElse deliveryId (getProp data "webhookId"));;
  match webhooksService svc with
  | None =>
      Returned (mockResult "delivered" [("deliveryId", deliveryId)]
        "WebhooksService not injected")
  | Some ws =>
      rethrow (
        (if truthy deliveryId && truthy (getProp data "organizationId")
            && truthy (getProp data "webhookId") then
           retryDelivery ws (getProp data "organizationId")
             (getProp data "webhookId") deliveryId;; mret tt
         else if truthy (getProp data "organizationId") && truthy event
                 && truthy payload then
           triggerEvent ws (getProp data "organizationId") event payload;;
           mret tt
         else
           Thrown {| message := "Missing required webhook delivery parameters";
                     stack := None |});;
        mret (result "delivered" [("deliveryId", deliveryId)]))
  end.

(** *** The job store *)

(** Modelled from the spec: the Prisma schema is not among the sources.
    The six job statuses of the data model. *)
Inductive JobStatus := pending | active | completed | failed | delayed | cancelled.

#[global] Instance JobStatus_eq_dec : EqDecision JobStatus.
Proof. solve_decision. Defined.

Module Job.
(** Modelled from the spec: the Prisma schema is not among the sources.
    A row of the [job] table: the columns the scheduler reads or writes
    ([id], [queueId], [name], [data], [status], [priority], [delayUntil],
    [createdAt]) and the retry bookkeeping of the data model. *)
Record t := mk {
  id : string;
  queueId : string;
  name : string;
  data : JsValue;
  status : JobStatus;
  priority : Z;
  attempts : Z;
  maxAttempts : Z;
  delayUntil : option Z;
  lastError : option string;
  result : option JobResult.t;
  createdAt : Z
}.

Definition set_status (s : JobStatus) (j : t) : t :=
  mk (id j) (queueId j) (name j) (data j) s (priority j) (attempts j)
     (maxAttempts j) (delayUntil j) (lastError j) (result j) (createdAt j).

Definition set_delayUntil (d : option Z) (j : t) : t :=
  mk (id j) (queueId j) (name j) (data j) (status j) (priority j) (attempts j)
     (maxAttempts j) d (lastError j) (result j) (createdAt j).

Definition set_attempts (n : Z) (j : t) : t :=
  mk (id j) (queueId j) (name j) (data j) (status j) (priority j) n
     (maxAttempts j) (delayUntil j) (lastError j) (result j) (createdAt j).

Definition set_lastError (e : option string) (j : t) : t :=
  mk (id j) (queueId j) (name j) (data j) (status j) (priority j) (attempts j)
     (maxAttempts j) (delayUntil j) e (result j) (createdAt j).

Definition set_result (r : option JobResult.t) (j : t) : t :=
  mk (id j) (queueId j) (name j) (data j) (status j) (priority j) (attempts j)
     (maxAttempts j) (delayUntil j) (lastError j) r (createdAt j).
End Job.

Module JobQueue.
(** Modelled from the spec: the Prisma schema is not among the sources.
    A row of the [jobQueue] table. *)
Record t := mk {
  id : string;
  name : string;
  concurrency : Z;
  isPaused : bool
}.
End JobQueue.

(** The two tables behind [this.prisma], rows in insertion order.  The
    queries and the bulk update below always succeed; a store that
    rejects is modelled at the transitions of [JobsService]. *)
Record Db := mkDb {
  jobQueue : list JobQueue.t;
  job : list Job.t
}.

Definition set_job (f : list Job.t -> list Job.t) (db : Db) : Db :=
  {| jobQueue := jobQueue db; job := f (job db) |}.

(** [orderBy: [{ priority: 'desc' }, { createdAt: 'asc' }]]. *)
Definition dispatchOrder (j1 j2 : Job.t) : Prop :=
  Job.priority j2 < Job.priority j1
  ∨ (Job.priority j1 = Job.priority j2 ∧ Job.createdAt j1 <= Job.createdAt j2).

#[global] Instance dispatchOrder_dec j1 j2 : Decision (dispatchOrder j1 j2).
Proof. unfold dispatchOrder. apply _. Defined.

(** [take: n]: the first [n] rows, and for a negative [n] the last [-n]. *)
Definition takeRows {A} (n : Z) (rows : list A) : list A :=
  if 0 <=? n then take (Z.to_nat n) rows
  else drop (length rows - Z.to_nat (- n))%nat rows.

(** [prisma.jobQueue.findMany({ where: { isPaused: false } })]. *)
Definition findActiveQueues (db : Db) : list JobQueue.t :=
  filter (fun q => JobQueue.isPaused q = false) (jobQueue db).

(** [prisma.job.findMany] of [processQueueJobs]: the pending jobs of the
    queue in dispatch order, cut to the queue's concurrency.  Rows that
    tie on both sort keys keep their insertion order. *)
Definition findPendingJobs (queue : JobQueue.t) (db : Db) : list Job.t :=
  takeRows (JobQueue.concurrency queue)
    (merge_sort dispatchOrder
       (filter (fun j => Job.queueId j = JobQueue.id queue ∧ Job.status j = pending)
          (job db))).

(** The [where] clause of [promoteDelayedJobs]: [status: 'delayed'] and
    [delayUntil: { lte: now }]; a null [delayUntil] matches no comparison. *)
Definition dueForPromotion (now : Z) (j : Job.t) : bool :=
  bool_decide (Job.status j = delayed)
  && match Job.delayUntil j with
     | Some d => d <=? now
     | None => false
     end.

(** The [data] clause of [promoteDelayedJobs]. *)
Definition promote (j : Job.t) : Job.t :=
  Job.set_delayUntil None (Job.set_status pending j).

(** [prisma.job.updateMany] of [promoteDelayedJobs]: the number of rows
    updated and the table after the update. *)
Definition updateManyDelayed (now : Z) (db : Db) : Z * Db :=
  (Z.of_nat (length (filter (fun j => dueForPromotion now j = true) (job db))),
   set_job (fmap (fun j => if dueForPromotion now j then promote j else j)) db).

(** *** The collaborating [JobsService]

    [jobs.service.ts] is not among the sources; the scheduler is
    parametric in its three status transitions.  Each either updates the
    store or rejects and leaves it as it was. *)
Class JobsService := {
  markJobActive : string -> Db -> Outcome Db;
  markJobCompleted : string -> JobResult.t -> Db -> Outcome Db;
  markJobFailed : string -> string -> option string -> Db -> Outcome Db
}.

(** Row update by id; rejects when no row has the id. *)
Definition updateJob (i : string) (f : Job.t -> Job.t) (db : Db) : Outcome Db :=
  if bool_decide (Exists (fun j => Job.id j = i) (job db)) then
    Returned (set_job (fmap (fun j => if decide (Job.id j = i) then f j else j)) db)
  else Thrown {| message := "Record to update not found"; stack := None |}.

(** Modelled from the spec: [JobsService] is not among the sources.  The
    retry policy of the design: a failed attempt below [maxAttempts] is
    requeued as delayed until [now + backoff attempts], with backoff
    [base * 2^attempts] capped at [cap]; otherwise the job fails for good
    with [lastError] recorded.  [attempts] counts dispatch attempts. *)
Definition specJobsService (now base cap : Z) : JobsService := {|
  markJobActive i :=
    updateJob i (fun j =>
      Job.set_attempts (Job.attempts j + 1) (Job.set_status active j));
  markJobCompleted i r :=
    updateJob i (fun j => Job.set_result (Some r) (Job.set_status completed j));
  markJobFailed i msg _ :=
    updateJob i (fun j =>
      if Job.attempts j <? Job.maxAttempts j then
        Job.set_delayUntil (Some (now + Z.min cap (base * 2 ^ Job.attempts j)))
          (Job.set_status delayed j)
      else Job.set_lastError (Some msg) (Job.set_status failed j))
|}.

(** *** The scheduler object *)

(** The calls the dispatch loop makes on its collaborators, in the order
    it makes them. *)
Inductive Event :=
  | QueueFindMany
  | JobFindMany (queueId : string)
  | MarkJobActive (jobId : string)
  | ExecuteJob (jobId : string)
  | MarkJobCompleted (jobId : string) (r : JobResult.t)
  | MarkJobFailed (jobId : string) (msg : string)
  | JobUpdateMany (now : Z).

(** The state a processing cycle reads and writes: the [isRunning] field
    of the scheduler, the store behind [prisma], and the log of the calls
    made so far. *)
Record World := mkWorld {
  isRunning : bool;
  db : Db;
  calls : list Event
}.

Definition set_isRunning (b : bool) (w : World) : World :=
  {| isRunning := b; db := db w; calls := calls w |}.

Definition set_db (d : Db) (w : World) : World :=
  {| isRunning := isRunning w; db := d; calls := calls w |}.

(** Asynchronous code of the scheduler: it threads the world and may
    reject. *)
Definition M (A : Type) : Type := World -> Outcome A * World.

Definition ret {A} (a : A) : M A := fun w => (Returned a, w).

Definition bind {A B} (m : M A) (k : A -> M B) : M B := fun w =>
  match m w with
  | (Returned a, w') => k a w'
  | (Thrown e, w') => (Thrown e, w')
  end.

Notation "x <- m ;;; k" := (bind m (fun x => k))
  (at level 100, m at next level, right associativity).
Notation "m >>> k" := (bind m (fun _ => k))
  (at level 100, right associativity).

(** [try { body } catch (error) { handler }]. *)
Definition tryCatch {A} (body : M A) (handler : JsError -> M A) : M A := fun w =>
  match body w with
  | (Returned a, w') => (Returned a, w')
  | (Thrown e, w') => handler e w'
  end.

(** [for (const x of xs) { await body(x) }]. *)
Fixpoint forEach {A} (xs : list A) (body : A -> M unit) : M unit :=
  match xs with
  | [] => ret tt
  | x :: rest => body x >>> forEach rest body
  end.

Definition call (e : Event) : M unit := fun w =>
  (Returned tt, {| isRunning := isRunning w; db := db w; calls := calls w ++ [e] |}).

Definition readDb {A} (f : Db -> A) : M A := fun w => (Returned (f (db w)), w).

Definition updateDb (f : Db -> Outcome Db) : M unit := fun w =>
  match f (db w) with
  | Returned d => (Returned tt, set_db d w)
  | Thrown e => (Thrown e, w)
  end.

Definition await {A} (o : Outcome A) : M A := fun w => (o, w).

(** The twelve job types routed by [executeJob]. *)
Definition handlerNames : list string :=
  [ "run-evidence-collector"; "send-scheduled-notifications"; "send-email";
    "sync-jira"; "sync-servicenow"; "generate-export"; "generate-report";
    "cleanup-expired-sessions"; "cleanup-old-audit-logs";
    "run-retention-policies"; "refresh-search-indexes"; "deliver-webhook" ].

(** [executeJob(job)]: the [switch] on the job name. *)
Definition executeJob (svc : Services) (job : Job.t) : Outcome JobResult.t :=
  let name := Job.name job in
  let data := Job.data job in
  if decide (name = "run-evidence-collector") then runEvidenceCollector svc data
  else if decide (name = "send-scheduled-notifications") then
    sendScheduledNotifications svc data
  else if decide (name = "send-email") then sendEmail svc data
  else if decide (name = "sync-jira") then syncJira svc data
  else if decide (name = "sync-servicenow") then syncServiceNow svc data
  else if decide (name = "generate-export") then generateExport svc data
  else if decide (name = "generate-report") then generateReport svc data
  else if decide (name = "cleanup-expired-sessions") then
    cleanupExpiredSessions svc data
  else if decide (name = "cleanup-old-audit-logs") then
    cleanupOldAuditLogs svc data
  else if decide (name = "run-retention-policies") then
    runRetentionPolicies svc data
  else if decide (name = "refresh-search-indexes") then
    refreshSearchIndexes svc data
  else if decide (name = "deliver-webhook") then deliverWebhook svc data
  else
    Returned (result "skipped"
                [("reason", JsStr ("Unknown job type: " +:+ name))]).

Section DispatchLoop.
Context `{JobsService} (svc : Services).

(** The body of the [for] loop of [processQueueJobs], for one claimed
    job. *)
Definition processJob (job : Job.t) : M unit :=
  tryCatch
    (call (MarkJobActive (Job.id job)) >>>
     updateDb (markJobActive (Job.id job)) >>>
     r <- (call (ExecuteJob (Job.id job)) >>> await (executeJob svc job)) ;;;
     call (MarkJobCompleted (Job.id job) r) >>>
     updateDb (markJobCompleted (Job.id job) r))
    (fun error =>
       call (MarkJobFailed (Job.id job) (message error)) >>>
       updateDb (markJobFailed (Job.id job) (message error) (stack error))).

(** [processQueueJobs(queue)]. *)
Definition processQueueJobs (queue : JobQueue.t) : M unit :=
  pendingJobs <- (call (JobFindMany (JobQueue.id queue)) >>>
                  readDb (findPendingJobs queue)) ;;;
  if decide (length pendingJobs = 0%nat) then ret tt
  else forEach pendingJobs processJob.

(** [promoteDelayedJobs()]; [now] is its [new Date()]. *)
Definition promoteDelayedJobs (now : Z) : M unit :=
  call (JobUpdateMany now) >>>
  fun w => (Returned tt, set_db (updateManyDelayed now (db w)).2 w).

(** The [try]/[catch] of [processJobs]: the [catch] logs and swallows. *)
Definition cycle (now : Z) : M unit :=
  tryCatch
    (queues <- (call QueueFindMany >>> readDb findActiveQueues) ;;;
     forEach queues processQueueJobs >>>
     promoteDelayedJobs now)
    (fun _ => ret tt).

(** [processJobs()], run to completion: the guard, the flag, the cycle
    and the [finally]. *)
Definition processJobs (now : Z) (w : World) : World :=
  if isRunning w then w
  else set_isRunning false (cycle now (set_isRunning true w)).2.

(** **** Timer ticks against a cycle in flight

    [processJobs] is asynchronous: an invocation runs up to its first
    [await] and the rest of the cycle completes later, while the interval
    timer may fire again.  A runtime state is the world together with
    the number of cycles that were entered and have not completed. *)
Record Runtime := mkRuntime {
  world : World;
  inFlight : nat
}.

(** The timer fires: [processJobs] is invoked and runs to its first
    [await]. *)
Definition tick (rt : Runtime) : Runtime :=
  if isRunning (world rt) then rt
  else {| world := set_isRunning true (world rt); inFlight := S (inFlight rt) |}.

(** A cycle in flight runs its remaining awaits and its [finally]. *)
Definition complete (now : Z) (rt : Runtime) : Runtime :=
  match inFlight rt with
  | O => rt
  | S n => {| world := set_isRunning false (cycle now (world rt)).2;
              inFlight := n |}
  end.

(** The flag is set exactly while a cycle is in flight, and there is
    never more than one. *)
Definition guarded (rt : Runtime) : Prop :=
  (isRunning (world rt) = true /\ inFlight rt = 1%nat)
  \/ (isRunning (world rt) = false /\ inFlight rt = 0%nat).

Inductive step : Runtime -> Runtime -> Prop :=
  | step_tick rt : step rt (tick rt)
  | step_complete now rt : (0 < inFlight rt)%nat -> step rt (complete now rt).

Definition initial (d : Db) : Runtime :=
  {| world := {| isRunning := false; db := d; calls := [] |}; inFlight := 0 |}.

End DispatchLoop.

(** *** Reading the call log *)

(** The ids of the jobs claimed ([markJobActive]) in a stretch of the
    call log, in order. *)
Definition claimed (events : list Event) : list string :=
  omap (fun e => match e with MarkJobActive i => Some i | _ => None end) events.

(** *** Which service backs which job type *)

Definition injected {A} (service : option A) : bool :=
  match service with Some _ => true | None => false end.

(** For the ten job types whose handler starts with a null test of an
    optional service: whether that service was injected.  The two
    maintenance types that go to [prisma] directly, and unknown types,
    have no optional service. *)
Definition backingService (svc : Services) (name : string) : option bool :=
  if decide (name = "run-evidence-collector") then
    Some (injected (collectorsService svc))
  else if decide (name = "send-scheduled-notifications") then
    Some (injected (scheduledNotificationsService svc))
  else if decide (name = "send-email") then Some (injected (emailService svc))
  else if decide (name = "sync-jira") then Some (injected (jiraService svc))
  else if decide (name = "sync-servicenow") then
    Some (injected (serviceNowService svc))
  else if decide (name = "generate-export") then
    Some (injected (exportsService svc))
  else if decide (name = "generate-report") then
    Some (injected (reportsService svc))
  else if decide (name = "cleanup-expired-sessions") then
    Some (injected (sessionService svc))
  else if decide (name = "run-retention-policies") then
    Some (injected (retentionService svc))
  else if decide (name = "deliver-webhook") then
    Some (injected (webhooksService svc))
  else None.

(** The value a handler interpolates in its first log line, for the
    seven job types whose handler logs a property of the payload. *)
Definition loggedProperty (name : string) (data : JsValue) : option JsValue :=
  if decide (name = "run-evidence-collector") then
    Some (getProp data "collectorId")
  else if decide (name = "send-email") then Some (getProp data "to")
  else if decide (name = "sync-jira") then Some (getProp data "mappingId")
  else if decide (name = "sync-servicenow") then
    Some (getProp data "mappingId")
  else if decide (name = "generate-export") then
    Some (getProp data "exportId")
  else if decide (name = "generate-report") then
    Some (getProp data "reportType")
  else if decide (name = "deliver-webhook") then
    Some (orElse (getProp data "deliveryId") (getProp data "webhookId"))
  else None.

(** A payload the handler of a job type gets past its first lines with:
    it can be destructured, and the property logged converts to a
    string. *)
Definition readablePayload (name : string) (data : JsValue) : Prop :=
  data <> JsNull /\ data <> JsUndefined
  /\ forall v, loggedProperty name data = Some v -> stringifiable v = true.

(** The two handlers that never read their payload. *)
Definition ignoresPayload (name : string) : Prop :=
  name = "send-scheduled-notifications" \/ name = "cleanup-expired-sessions".

(** A result carrying a status, [isMockMode: true] and a reason. *)
Definition isMockTagged (r : JobResult.t) : Prop :=
  JobResult.isMockMode r = Some true
  /\ exists reason, JobResult.mockModeReason r = Some reason.

(** The statement put to the test: "a job whose backing service is absent
    executes without throwing and returns a mock-tagged result". *)
Definition absent_service_never_throws (svc : Services) (job : Job.t) : Prop :=
  backingService svc (Job.name job) = Some false ->
  exists r, executeJob svc job = Returned r /\ isMockTagged r.

(** *** Sample deployment and store *)

(** A deployment with none of the optional services. *)
Definition noServices : Services :=
  {| collectorsService := None; emailService := None;
     notificationsService := None; scheduledNotificationsService := None;
     jiraService := None; serviceNowService := None; exportsService := None;
     reportsService := None; retentionService := None;
     webhooksService := None; sessionService := None;
     auditLogDeleteMany := fun _ _ => Returned (JsNum 0);
     executeRaw := fun _ => Returned tt |}.

Definition defaultQueue : JobQueue.t :=
  {| JobQueue.id := "q1"; JobQueue.name := "default";
     JobQueue.concurrency := 5; JobQueue.isPaused := false |}.

Definition newJob (i name : string) (data : JsValue) (created : Z) : Job.t :=
  {| Job.id := i; Job.queueId := "q1"; Job.name := name; Job.data := data;
     Job.status := pending; Job.priority := 0; Job.attempts := 0;
     Job.maxAttempts := 3; Job.delayUntil := None; Job.lastError := None;
     Job.result := None; Job.createdAt := created |}.

Definition emailJob : Job.t :=
  newJob "j1" "send-email" (JsObj {["to" := JsStr "ops@example.org"]}) 10.

Definition unknownJob : Job.t := newJob "j2" "reticulate-splines" JsNull 20.

Definition retryingJob : Job.t :=
  Job.set_delayUntil (Some 500)
    (Job.set_status delayed (newJob "j3" "sync-jira" (JsObj ∅) 30)).

Definition sleepingJob : Job.t :=
  Job.set_delayUntil (Some 9000)
    (Job.set_status delayed (newJob "j4" "sync-jira" (JsObj ∅) 40)).

Definition sampleDb : Db :=
  {| jobQueue := [defaultQueue];
     job := [emailJob; unknownJob; retryingJob; sleepingJob] |}.

(** An email job enqueued with a null payload. *)
Definition nullEmailJob : Job.t := newJob "j5" "send-email" JsNull 50.

Definition sampleJobsService : JobsService := specJobsService 1000 100 60000.

(** An email job whose recipient is an object with a [toString]
    property that is not a function. *)
Definition unprintableEmailJob : Job.t :=
  newJob "j7" "send-email"
    (JsObj {["to" := JsObj {["toString" := JsNull]}]}) 70.

(** A store that holds the email job with the null payload. *)
Definition nullPayloadDb : Db :=
  {| jobQueue := [defaultQueue]; job := [nullEmailJob] |}.

(** A deployment whose raw statements are rejected by the database. *)
Definition noSearchColumns : Services :=
  {| collectorsService := None; emailService := None;
     notificationsService := None; scheduledNotificationsService := None;
     jiraService := None; serviceNowService := None; exportsService := None;
     reportsService := None; retentionService := None;
     webhooksService := None; sessionService := None;
     auditLogDeleteMany := fun _ _ => Returned (JsNum 0);
     executeRaw := fun _ =>
       Thrown {| message := "column searchVector does not exist";
                 stack := None |} |}.

Definition reindexJob : Job.t :=
  newJob "j6" "refresh-search-indexes" (JsObj ∅) 60.

End Scheduler.

(** ** Email service *)

Module Email.
Import Js.

(** The mail transport built by [nodemailer.createTransport]: the stream
    transport of console mode, or an SMTP transport with its host, port,
    [secure] flag and credentials. *)
Inductive Transport :=
  | StreamTransport
  | SmtpTransport (host : string) (port secure : JsValue) (user pass : string).

(** The fields of the [EmailService] object. *)
Record EmailService := mkEmailService {
  transporter : Transport;
  _isConsoleMode : bool;
  _consoleReason : option string;
  _provider : string
}.

(** [interface EmailServiceStatus]. *)
Record EmailServiceStatus := mkStatus {
  isConfigured : bool;
  provider : string;
  isConsoleMode : bool;
  consoleReason : option string
}.

(** The configuration read through [configService.get]: environment
    variables, all strings. *)
Definition Config : Type := gmap string string.

(** [!value] on a configuration value: unset or empty. *)
Definition missing (value : option string) : bool :=
  match value with
  | None => true
  | Some s => String.eqb s ""
  end.

(** [initializeConsoleMode(reason)]. *)
Definition initializeConsoleMode (reason : option string) : EmailService :=
  {| transporter := StreamTransport;
     _isConsoleMode := true;
     _consoleReason :=
       Some (if missing reason then "No email provider configured"
             else default "" reason);
     _provider := "console" |}.

(** The constructor: [initializeTransporter()] on the initial fields. *)
Definition initializeTransporter (config : Config) : EmailService :=
  let emailProvider := default "smtp" (config !! "EMAIL_PROVIDER") in
  if decide (emailProvider = "console") then
    {| transporter := StreamTransport;
       _isConsoleMode := true;
       _consoleReason :=
         Some "EMAIL_PROVIDER is set to console (development mode)";
       _provider := "console" |}
  else if decide (emailProvider = "sendgrid") then
    let apiKey := config !! "SENDGRID_API_KEY" in
    if missing apiKey then
      initializeConsoleMode
        (Some "SENDGRID_API_KEY environment variable not set")
    else
      {| transporter :=
           SmtpTransport "smtp.sendgrid.net" (JsNum 587) (JsBool false)
             "apikey" (default "" apiKey);
         _isConsoleMode := false;
         _consoleReason := None;
         _provider := "sendgrid" |}
  else if decide (emailProvider = "ses") then
    let region := default "us-east-1" (config !! "AWS_REGION") in
    let accessKeyId := config !! "AWS_ACCESS_KEY_ID" in
    let secretAccessKey := config !! "AWS_SECRET_ACCESS_KEY" in
    if missing accessKeyId || missing secretAccessKey then
      initializeConsoleMode
        (Some "AWS_ACCESS_KEY_ID and AWS_SECRET_ACCESS_KEY environment variables not set")
    else
      {| transporter :=
           SmtpTransport ("email-smtp." +:+ region +:+ ".amazonaws.com")
             (JsNum 587) (JsBool false)
             (default "" accessKeyId) (default "" secretAccessKey);
         _isConsoleMode := false;
         _consoleReason := None;
         _provider := "ses" |}
  else
    let host := config !! "SMTP_HOST" in
    let port := from_option JsStr (JsNum 587) (config !! "SMTP_PORT") in
    let secure := from_option JsStr (JsBool false) (config !! "SMTP_SECURE") in
    let user := config !! "SMTP_USER" in
    let pass := config !! "SMTP_PASS" in
    if missing host || missing user || missing pass then
      initializeConsoleMode
        (Some "SMTP_HOST, SMTP_USER, and SMTP_PASS environment variables not set")
    else
      {| transporter :=
           SmtpTransport (default "" host) port secure
             (default "" user) (default "" pass);
         _isConsoleMode := false;
         _consoleReason := None;
         _provider := "smtp" |}.

(** [getStatus()]. *)
Definition getStatus (service : EmailService) : EmailServiceStatus :=
  {| isConfigured := negb (_isConsoleMode service);
     provider := _provider service;
     isConsoleMode := _isConsoleMode service;
     consoleReason := _consoleReason service |}.

(** *** [stripHtml]

    A string is the list of its UTF-16 code units. *)

Definition LT : N := 60.   (* '<' *)
Definition GT : N := 62.   (* '>' *)

(** Whether a ['>'] occurs in the string. *)
Definition containsGT (s : list N) : bool := bool_decide (GT ∈ s).

(** One [replace(/<[^>]*>/g, '')]: scanning from the left, a ['<'] that
    has a ['>'] somewhere after it starts a match that ends at the first
    such ['>'], and the match is dropped; a ['<'] with no ['>'] after it
    matches nothing and stays.  [inside] tells whether the scan is inside
    a match. *)
Fixpoint replaceTags (inside : bool) (s : list N) : list N :=
  match s with
  | [] => []
  | c :: rest =>
      if inside then
        if N.eqb c GT then replaceTags false rest else replaceTags true rest
      else if N.eqb c LT && containsGT rest then replaceTags true rest
      else c :: replaceTags false rest
  end.

(** Whether the loop test [result !== previous] holds, as a number. *)
Definition pending (previous result : list N) : nat :=
  if decide (result = previous) then 0 else 1.

(** The [while (result !== previous)] loop, from the values of
    [previous] and [result] on entry. *)
Equations? stripLoop (previous result : list N) : list N
  by wf (2 * length result + pending previous result)%nat lt :=
  stripLoop previous result with decide (result = previous) => {
    | left _ := result;
    | right _ := stripLoop result (replaceTags false result) }.
Proof.
  clear stripLoop.
  assert (Hpass : forall s inside,
            (length (replaceTags inside s) <= length s)%nat
            /\ (inside = false ->
                length (replaceTags inside s) = length s ->
                replaceTags inside s = s)).
  { induction s as [|c rest IH]; intros inside; [done|].
    cbn [replaceTags length].
    destruct (IH true) as [Htrue _], (IH false) as [Hfalse Hsame].
    destruct inside.
    - split; [|done]. destruct (N.eqb c GT); lia.
    - destruct (N.eqb c LT && containsGT rest).
      + split; [lia|]. intros _ Hlen. lia.
      + cbn [length]. split; [lia|]. intros _ Hlen. f_equal.
        apply Hsame; [done | lia]. }
  destruct (Hpass result false) as [Hle Hsame]. unfold pending.
  destruct (decide (result = previous)); [done|].
  destruct (decide (replaceTags false result = result)) as [Heq|Hne]; [lia|].
  assert (length (replaceTags false result) <> length result) by auto.
  lia.
Qed.

(** The code units removed by [trim()]: white space and line
    terminators. *)
Definition isWhiteSpace (c : N) : bool :=
  bool_decide (c ∈ [9; 10; 11; 12; 13; 32; 160; 5760; 8192; 8193; 8194; 8195;
                    8196; 8197; 8198; 8199; 8200; 8201; 8202; 8232; 8233; 8239;
                    8287; 12288; 65279]%N).

Fixpoint trimStart (s : list N) : list N :=
  match s with
  | [] => []
  | c :: rest => if isWhiteSpace c then trimStart rest else s
  end.

Definition trimEnd (s : list N) : list N := reverse (trimStart (reverse s)).

Definition trim (s : list N) : list N := trimEnd (trimStart s).

(** [stripHtml(html)]. *)
Definition stripHtml (html : list N) : list N := trim (stripLoop [] html).

(** Whether some ['<'] of the string has a ['>'] after it, that is,
    whether the pattern [/<[^>]*>/] matches somewhere. *)
Fixpoint hasTag (s : list N) : bool :=
  match s with
  | [] => false
  | c :: rest => (N.eqb c LT && containsGT rest) || hasTag rest
  end.

(** *** Samples *)

Definition sendgridWithoutKey : Config := {["EMAIL_PROVIDER" := "sendgrid"]}.

(** The code units of ["<sc<script>ript> hi "]. *)
Definition nestedScript : list N :=
  [60; 115; 99; 60; 115; 99; 114; 105; 112; 116; 62; 114; 105; 112; 116; 62;
   32; 104; 105; 32]%N.

End Email.

(** * Properties of [retryAsync] *)

Section ErrorsTheory.
Import Js Errors.
Context `{NumberToString} {S T : Type} (fn : S -> Settled T * S)
        (options : RetryOptions) (context : option string).

Lemma delays_app log1 log2 : delays (log1 ++ log2) = delays log1 ++ delays log2.
Proof. apply omap_app. Qed.

Lemma invocations_app log1 log2 :
  invocations (log1 ++ log2) = invocations log1 + invocations log2.
Proof. unfold invocations. rewrite filter_app, length_app. lia. Qed.

Lemma delays_spaced waits : delays (spaced waits) = waits.
Proof.
  induction waits as [|d waits IH]; [done|].
  change (delays (spaced (d :: waits))) with (d :: delays (spaced waits)).
  by rewrite IH.
Qed.

Lemma invocations_spaced waits :
  invocations (spaced waits) = Z.of_nat (length waits) + 1.
Proof.
  induction waits as [|d waits IH]; [done|].
  change (spaced (d :: waits)) with ([Called; Slept d] ++ spaced waits).
  rewrite invocations_app, IH.
  change (invocations [Called; Slept d]) with 1. cbn [length]. lia.
Qed.

Lemma stateAfter_next (k : nat) s :
  stateAfter fn (k + 1) s = stateAfter fn k (fn s).2.
Proof.
  unfold stateAfter. rewrite Nat.add_1_r.
  exact (Nat.iter_succ_r k (fun s0 => (fn s0).2) s).
Qed.

Lemma attempts_one attempt : attempts options attempt 1 = [Called].
Proof. reflexivity. Qed.

Lemma attempts_next attempt (k : nat) :
  (0 < k)%nat ->
  attempts options attempt (k + 1)
  = Called :: Slept (delayMs options attempt)
      :: attempts options (attempt + 1) k.
Proof.
  intros Hk. destruct k as [|k]; [lia|].
  rewrite Nat.add_1_r. unfold attempts.
  rewrite (seqZ_cons attempt) by lia.
  replace (Z.pred (Z.of_nat (Datatypes.S k))) with (Z.of_nat k) by lia.
  replace (Z.succ attempt) with (attempt + 1) by lia.
  reflexivity.
Qed.

Lemma delays_attempts attempt (k : nat) :
  delays (attempts options attempt k)
  = (delayMs options <$> seqZ attempt (Z.of_nat (Nat.pred k))).
Proof. destruct k as [|k]; [done|]. apply delays_spaced. Qed.

Lemma invocations_attempts attempt (k : nat) :
  invocations (attempts options attempt k) = Z.of_nat k.
Proof.
  destruct k as [|k]; [done|]. unfold attempts.
  rewrite invocations_spaced, length_fmap, length_seqZ. lia.
Qed.

Lemma attempts_spaced attempt (k : nat) :
  (0 < k)%nat ->
  attempts options attempt k = spaced (delays (attempts options attempt k)).
Proof.
  intros Hk. destruct k as [|k]; [lia|].
  unfold attempts. by rewrite delays_spaced.
Qed.

(** Whatever [fn] does, the waits of the loop started at [attempt] are
    the backoff delays of consecutive attempt indices below
    [maxRetries]. *)
Lemma retryFrom_delays attempt lastError s log :
  exists k,
    0 <= k
    /\ attempt + k <= Z.max attempt (maxRetries options)
    /\ delays (retryFrom fn options context attempt lastError s log).2
       = delays log ++ (delayMs options <$> seqZ attempt k).
Proof.
  funelim (retryFrom fn options context attempt lastError s log).
  - exists 0. cbn. rewrite app_nil_r. repeat split; lia.
  - exists 0. cbn. rewrite delays_app, !app_nil_r. repeat split; lia.
  - match goal with
    | IH : exists k, _ |- _ => destruct IH as (k & Hk & Hbound & Hdelays)
    end.
    rewrite Hdelays, delays_app.
    destruct (decide (attempt < maxRetries options)) as [Hlt|Hge].
    + exists (k + 1). split; [lia|]. split; [lia|].
      rewrite (seqZ_cons attempt (k + 1)) by lia.
      replace (Z.pred (k + 1)) with k by lia.
      replace (Z.succ attempt) with (attempt + 1) by lia.
      cbn. by rewrite <- app_assoc.
    + exists 0. assert (k = 0) as -> by lia.
      cbn. rewrite !app_nil_r. repeat split; lia.
Qed.

(** What the loop started at [attempt] does, whatever [fn] does: it
    invokes [fn] some [k] times in a row, with the waits of the loop
    between the invocations; every invocation but the last rejected; it
    resolves with what the last invocation resolved with, or it used
    every attempt and throws what [exhausted] makes of the last caught
    value. *)
Lemma retryFrom_run attempt lastError s log :
  exists k : nat,
    Z.of_nat k <= Z.max 0 (maxRetries options + 1 - attempt)
    /\ (attempt <= maxRetries options -> (0 < k)%nat)
    /\ (retryFrom fn options context attempt lastError s log).1.2
       = stateAfter fn k s
    /\ (retryFrom fn options context attempt lastError s log).2
       = log ++ attempts options attempt k
    /\ (forall i : nat,
          (i + 1 < k)%nat ->
          exists e, (fn (stateAfter fn i s)).1 = Rejected e)
    /\ match (retryFrom fn options context attempt lastError s log).1.1 with
       | Resolved value =>
           (0 < k)%nat
           /\ (fn (stateAfter fn (Nat.pred k) s)).1 = Resolved value
       | Rejected error =>
           Z.of_nat k = Z.max 0 (maxRetries options + 1 - attempt)
           /\ exists caught,
                error = exhausted options context caught
                /\ (k = 0%nat -> caught = lastError)
                /\ ((0 < k)%nat ->
                    (fn (stateAfter fn (Nat.pred k) s)).1 = Rejected caught)
       end.
Proof.
  funelim (retryFrom fn options context attempt lastError s log).
  - exists 0%nat. cbn [fst snd]. rewrite app_nil_r.
    split; [lia|]. split; [lia|]. split; [done|]. split; [done|].
    split; [intros i Hi; lia|]. split; [lia|].
    exists lastError. split; [done|]. split; [done | lia].
  - exists 1%nat. cbn [fst snd].
    match goal with Hq : fn s = _ |- _ => rename Hq into Hfn end.
    split; [lia|]. split; [lia|].
    split; [unfold stateAfter; cbn; by rewrite Hfn|]. split; [done|].
    split; [intros i Hi; lia|]. split; [lia|].
    cbn. by rewrite Hfn.
  - match goal with Hq : fn s = _ |- _ => rename Hq into Hfn end.
    match goal with
    | IH : exists k : nat, _ |- _ =>
        destruct IH as (k & Hmax & Hmin & Hstate & Hlog & Hbefore & Hout)
    end.
    assert (Hs' : s' = (fn s).2) by (by rewrite Hfn).
    exists (k + 1)%nat.
    split; [lia|]. split; [lia|].
    split; [by rewrite stateAfter_next, <- Hs'|].
    split.
    { rewrite Hlog, <- app_assoc. f_equal.
      destruct (decide (attempt < maxRetries options)) as [Hlt|Hge].
      - rewrite attempts_next by lia. done.
      - assert (k = 0%nat) as -> by lia. done. }
    split.
    { intros i Hi. destruct i as [|i].
      - exists error. cbn. by rewrite Hfn.
      - replace (Datatypes.S i) with (i + 1)%nat by lia.
        rewrite stateAfter_next, <- Hs'. apply Hbefore. lia. }
    replace (Nat.pred (k + 1)) with k by lia.
    destruct ((retryFrom fn options context (attempt + 1) error s' _).1.1)
      as [value|thrown].
    + destruct Hout as [Hk Hlast]. split; [lia|].
      destruct k as [|k]; [lia|].
      replace (Datatypes.S k) with (k + 1)%nat by lia.
      rewrite stateAfter_next, <- Hs'. exact Hlast.
    + destruct Hout as (Hk & caught & Herror & Hnone & Hlast).
      split; [lia|]. exists caught. split; [done|]. split; [lia|].
      intros _. destruct k as [|k].
      * rewrite (Hnone eq_refl). cbn. by rewrite Hfn.
      * replace (Datatypes.S k) with (k + 1)%nat by lia.
        rewrite stateAfter_next, <- Hs'. apply Hlast. lia.
Qed.

(** What [exhausted] throws when the message of the last caught value
    can be read. *)
Lemma exhausted_readable caught msg :
  getErrorMessage caught = Normal msg ->
  exists e,
    exhausted options context caught = ErrorValue e
    /\ domain e = true
    /\ message e = msg
    /\ props e !! "code" = Some (JsStr "RETRY_EXHAUSTED").
Proof.
  intros Hmsg. unfold exhausted. rewrite Hmsg. cbn.
  eexists. split; [reflexivity|]. split; [done|]. split; [done|].
  by simplify_map_eq.
Qed.

(** The only thing a read of a message or a code throws is the
    [TypeError] of the conversion. *)
Lemma stringOf_throws v e : stringOf v = Throw e -> e = cannotConvert.
Proof. unfold stringOf. destruct (jsString v); congruence. Qed.

Lemma getErrorMessage_throws error e :
  getErrorMessage error = Throw e -> e = cannotConvert.
Proof.
  unfold getErrorMessage.
  destruct error as [err|[| | | | | |fs]]; try discriminate.
  destruct (fs !! "message"); [apply stringOf_throws | discriminate].
Qed.

Lemma exhausted_unreadable caught e :
  getErrorMessage caught = Throw e ->
  exhausted options context caught = cannotConvert.
Proof.
  intros Hmsg. unfold exhausted. rewrite Hmsg. cbn.
  by apply getErrorMessage_throws in Hmsg.
Qed.


End ErrorsTheory.



(** * Properties of the service registry *)

Section RegistryTheory.
Import Registry.

Implicit Types (n : string) (r : ServiceRegistry) (c : CircuitBreakerState).

Lemma recordFailure_circuit n clk r c :
  circuitBreakers r !! n = Some c ->
  circuitBreakers (recordFailure n clk r) !! n
  = Some (failureCircuit (circuitConfig r) (atFailure clk) (atTrip clk) c).
Proof.
  intros Hc. unfold recordFailure. rewrite Hc. cbn.
  destruct (services r !! n); cbn; apply lookup_insert_eq.
Qed.

Lemma recordFailure_config n clk r :
  circuitConfig (recordFailure n clk r) = circuitConfig r.
Proof.
  unfold recordFailure. destruct (circuitBreakers r !! n); [|done].
  cbn. by destruct (services r !! n).
Qed.

Lemma failureCircuit_closed_below cfg tFail tTrip c :
  state c = CLOSED ->
  failures c + 1 < failureThreshold cfg ->
  failureCircuit cfg tFail tTrip c
  = {| state := CLOSED; failures := failures c + 1; successes := 0;
       lastFailureTime := Some tFail; nextRetryTime := nextRetryTime c |}.
Proof.
  intros Hst Hlt. unfold failureCircuit. cbn. rewrite Hst. cbn.
  destruct (Z.leb_spec (failureThreshold cfg) (failures c + 1)); [lia | done].
Qed.

Lemma failureCircuit_closed_reach cfg tFail tTrip c :
  state c = CLOSED ->
  failureThreshold cfg <= failures c + 1 ->
  failureCircuit cfg tFail tTrip c
  = {| state := OPEN; failures := failures c + 1; successes := 0;
       lastFailureTime := Some tFail;
       nextRetryTime := Some (tTrip + timeout cfg) |}.
Proof.
  intros Hst Hle. unfold failureCircuit. cbn. rewrite Hst. cbn.
  destruct (Z.leb_spec (failureThreshold cfg) (failures c + 1)); [done | lia].
Qed.

Lemma failureCircuit_half_open cfg tFail tTrip c :
  state c = HALF_OPEN ->
  failureCircuit cfg tFail tTrip c
  = {| state := OPEN; failures := failures c + 1; successes := 0;
       lastFailureTime := Some tFail;
       nextRetryTime := Some (tTrip + timeout cfg) |}.
Proof. intros Hst. unfold failureCircuit. cbn. by rewrite Hst. Qed.

(** A run of failures that stays below the threshold leaves a closed
    circuit closed and counts every call. *)
Lemma recordFailures_below n clks : forall r c,
  circuitBreakers r !! n = Some c ->
  state c = CLOSED ->
  failures c + Z.of_nat (length clks) < failureThreshold (circuitConfig r) ->
  exists c',
    circuitBreakers (recordFailures n clks r) !! n = Some c'
    /\ circuitConfig (recordFailures n clks r) = circuitConfig r
    /\ state c' = CLOSED
    /\ failures c' = failures c + Z.of_nat (length clks)
    /\ nextRetryTime c' = nextRetryTime c.
Proof.
  induction clks as [|clk clks IH]; intros r c Hc Hst Hlt.
  - exists c. cbn. repeat split; try done. lia.
  - cbn [recordFailures foldl length] in *.
    pose proof (recordFailure_circuit n clk r c Hc) as Hc1.
    rewrite failureCircuit_closed_below in Hc1 by (done || lia).
    destruct (IH _ _ Hc1 eq_refl) as (c' & Hc' & Hcfg & Hst' & Hf & Hn).
    { rewrite recordFailure_config. cbn. lia. }
    exists c'. unfold recordFailures in *. rewrite Hc', Hcfg, recordFailure_config.
    cbn in Hf, Hn. repeat split; try done. lia.
Qed.

Lemma recordFailures_snoc n clks last r :
  recordFailures n (clks ++ [last]) r = recordFailure n last (recordFailures n clks r).
Proof. unfold recordFailures. by rewrite foldl_app. Qed.

(** C1: on a closed circuit, consecutive [recordFailure] calls leave the
    circuit closed as long as the failure count stays below
    [failureThreshold]; the call that makes the count reach
    [failureThreshold] opens the circuit and sets [nextRetryTime] to the
    time read by that call plus the configured cooldown. *)
Theorem closed_circuit_trips_at_threshold n r c :
  circuitBreakers r !! n = Some c ->
  state c = CLOSED ->
  (forall clks,
     failures c + Z.of_nat (length clks) < failureThreshold (circuitConfig r) ->
     exists c',
       circuitBreakers (recordFailures n clks r) !! n = Some c'
       /\ state c' = CLOSED
       /\ failures c' = failures c + Z.of_nat (length clks))
  /\ (forall clks last,
        failures c + Z.of_nat (length clks) + 1
        = failureThreshold (circuitConfig r) ->
        exists c',
          circuitBreakers (recordFailures n (clks ++ [last]) r) !! n = Some c'
          /\ state c' = OPEN
          /\ failures c' = failureThreshold (circuitConfig r)
          /\ nextRetryTime c'
             = Some (atTrip last + timeout (circuitConfig r))).
Proof.
  intros Hc Hst. split.
  - intros clks Hlt.
    destruct (recordFailures_below n clks r c Hc Hst Hlt)
      as (c' & Hc' & _ & Hst' & Hf & _).
    by exists c'.
  - intros clks last Hreach.
    destruct (recordFailures_below n clks r c Hc Hst)
      as (c' & Hc' & Hcfg & Hst' & Hf & _); [lia|].
    rewrite recordFailures_snoc.
    eexists. split.
    { apply recordFailure_circuit, Hc'. }
    rewrite Hcfg, failureCircuit_closed_reach by (done || lia).
    cbn. repeat split; try done. lia.
Qed.

Lemma closed_circuit_trips_at_threshold_witness :
  getCircuitState "reports"
    (recordFailures "reports" (clockAt <$> [1; 2; 3; 4]) reportsRegistry)
  = Some CLOSED
  /\ getCircuitState "reports"
       (recordFailures "reports" ((clockAt <$> [1; 2; 3; 4]) ++ [clockAt 5])
          reportsRegistry)
     = Some OPEN
  /\ (nextRetryTime <$>
        circuitBreakers
          (recordFailures "reports" ((clockAt <$> [1; 2; 3; 4]) ++ [clockAt 5])
             reportsRegistry) !! "reports")
     = Some (Some 30005).
Proof.
  destruct (closed_circuit_trips_at_threshold "reports" reportsRegistry
              {| state := CLOSED; failures := 0; successes := 0;
                 lastFailureTime := None; nextRetryTime := None |}
              eq_refl eq_refl) as [Hbelow Hreach].
  destruct (Hbelow (clockAt <$> [1; 2; 3; 4])) as (c1 & Hc1 & Hs1 & _);
    [vm_compute; reflexivity|].
  destruct (Hreach (clockAt <$> [1; 2; 3; 4]) (clockAt 5))
    as (c2 & Hc2 & Hs2 & _ & Hn2); [vm_compute; reflexivity|].
  unfold getCircuitState. rewrite Hc1, Hc2. cbn. rewrite Hs1, Hs2, Hn2.
  repeat split.
Defined.

(** C2: for a registered service whose circuit is open, a lookup before
    [nextRetryTime] returns no URL and changes nothing; a lookup at or
    after [nextRetryTime] moves the circuit to half-open (and returns the
    URL). *)
Theorem open_circuit_fast_fails_until_retry n r s c retry now :
  services r !! n = Some s ->
  circuitBreakers r !! n = Some c ->
  state c = OPEN ->
  nextRetryTime c = Some retry ->
  (now < retry -> getServiceUrl n now r = (None, r))
  /\ (retry <= now ->
      exists r',
        getServiceUrl n now r = (Some (url s), r')
        /\ circuitBreakers r' !! n
           = Some {| state := HALF_OPEN; failures := failures c;
                     successes := successes c;
                     lastFailureTime := lastFailureTime c;
                     nextRetryTime := Some retry |}
        /\ getCircuitState n r' = Some HALF_OPEN
        /\ services r' = services r).
Proof.
  intros Hs Hc Hst Hretry. unfold getServiceUrl. rewrite Hs, Hc, Hretry.
  destruct (decide (state c = OPEN)) as [_|]; [|done].
  split; intros Hnow.
  - destruct (Z.leb_spec retry now); [lia | done].
  - destruct (Z.leb_spec retry now); [|lia].
    eexists. split; [reflexivity|].
    unfold getCircuitState. cbn. by rewrite lookup_insert_eq.
Qed.

Lemma open_circuit_fast_fails_until_retry_witness :
  getServiceUrl "reports" 30004 reportsOpen = (None, reportsOpen)
  /\ (getServiceUrl "reports" 30005 reportsOpen).1 = Some "http://localhost:3007"
  /\ getCircuitState "reports" (getServiceUrl "reports" 30005 reportsOpen).2
     = Some HALF_OPEN.
Proof.
  assert (Hs : services reportsOpen !! "reports"
               = Some {| name := "reports"; url := "http://localhost:3007";
                         version := None; status := UNHEALTHY; lastCheck := 5;
                         consecutiveFailures := 5; metadata := None |})
    by (vm_compute; reflexivity).
  assert (Hc : circuitBreakers reportsOpen !! "reports"
               = Some {| state := OPEN; failures := 5; successes := 0;
                         lastFailureTime := Some 5;
                         nextRetryTime := Some 30005 |})
    by (vm_compute; reflexivity).
  split.
  - apply (open_circuit_fast_fails_until_retry _ _ _ _ 30005 30004 Hs Hc
             eq_refl eq_refl). lia.
  - destruct (open_circuit_fast_fails_until_retry _ _ _ _ 30005 30005 Hs Hc
                eq_refl eq_refl) as [_ Hafter].
    destruct Hafter as (r' & Hurl & _ & Hstate & _); [lia|].
    rewrite Hurl. cbn. by split.
Defined.

(** C3 as stated fails: on the half-open sample registry the failure
    count goes from 5 to 6 (and the entry's [consecutiveFailures] from 5
    to 6); nothing is reset. *)
Lemma half_open_failure_keeps_counting :
  getCircuitState "reports" reportsHalfOpen = Some HALF_OPEN
  /\ (failures <$> circuitBreakers reportsHalfOpen !! "reports") = Some 5
  /\ (failures <$>
        circuitBreakers (recordFailure "reports" (clockAt 40001) reportsHalfOpen)
          !! "reports") = Some 6
  /\ (consecutiveFailures <$>
        services (recordFailure "reports" (clockAt 40001) reportsHalfOpen)
          !! "reports") = Some 6
  /\ ~ reopens_and_resets_streak "reports" (clockAt 40001) reportsHalfOpen.
Proof.
  repeat split; try (vm_compute; reflexivity).
  intros Hclaim.
  destruct (Hclaim {| state := HALF_OPEN; failures := 5; successes := 0;
                      lastFailureTime := Some 5; nextRetryTime := Some 30005 |})
    as (c' & Hc' & _ & _ & Hf); [vm_compute; reflexivity | reflexivity |].
  vm_compute in Hc'. injection Hc' as <-. discriminate Hf.
Qed.

(** C3, amended: on a half-open circuit a single [recordFailure] opens
    the circuit with [nextRetryTime] equal to the time read by the call
    plus the cooldown, whatever the failure count and the threshold are;
    the failure count is incremented (not reset), the success count is
    reset to 0, and a registered entry becomes unhealthy with one more
    consecutive failure. *)
Theorem half_open_failure_reopens n clk r c :
  circuitBreakers r !! n = Some c ->
  state c = HALF_OPEN ->
  circuitBreakers (recordFailure n clk r) !! n
  = Some {| state := OPEN; failures := failures c + 1; successes := 0;
            lastFailureTime := Some (atFailure clk);
            nextRetryTime := Some (atTrip clk + timeout (circuitConfig r)) |}
  /\ (forall s, services r !! n = Some s ->
        services (recordFailure n clk r) !! n
        = Some {| name := name s; url := url s; version := version s;
                  status := UNHEALTHY; lastCheck := atCheck clk;
                  consecutiveFailures := consecutiveFailures s + 1;
                  metadata := metadata s |}).
Proof.
  intros Hc Hst. split.
  - rewrite (recordFailure_circuit n clk r c Hc).
    by rewrite failureCircuit_half_open.
  - intros s Hs. unfold recordFailure. rewrite Hc. cbn. rewrite Hs. cbn.
    rewrite lookup_insert_eq, failureCircuit_half_open by done. done.
Qed.

Lemma half_open_failure_reopens_witness :
  circuitBreakers (recordFailure "reports" (clockAt 40001) reportsHalfOpen)
    !! "reports"
  = Some {| state := OPEN; failures := 6; successes := 0;
            lastFailureTime := Some 40001; nextRetryTime := Some 70001 |}.
Proof.
  apply (half_open_failure_reopens "reports" (clockAt 40001) reportsHalfOpen
           {| state := HALF_OPEN; failures := 5; successes := 0;
              lastFailureTime := Some 5; nextRetryTime := Some 30005 |}).
  - vm_compute; reflexivity.
  - reflexivity.
Defined.

(** C4 as stated fails: on the open sample registry, a [recordSuccess]
    at time 1000 (the retry time is 30005) clears the failure count,
    counts a success and marks the entry healthy. *)
Lemma success_while_open_changes_counters :
  circuitBreakers reportsOpen !! "reports"
  = Some {| state := OPEN; failures := 5; successes := 0;
            lastFailureTime := Some 5; nextRetryTime := Some 30005 |}
  /\ circuitBreakers (recordSuccess "reports" 1000 reportsOpen) !! "reports"
     = Some {| state := OPEN; failures := 0; successes := 1;
               lastFailureTime := Some 5; nextRetryTime := Some 30005 |}
  /\ (status <$> services reportsOpen !! "reports") = Some UNHEALTHY
  /\ (status <$> services (recordSuccess "reports" 1000 reportsOpen) !! "reports")
     = Some HEALTHY
  /\ ~ success_while_open_has_no_effect "reports" 1000 reportsOpen.
Proof.
  repeat split; try (vm_compute; reflexivity).
  intros Hclaim.
  destruct (Hclaim {| state := OPEN; failures := 5; successes := 0;
                      lastFailureTime := Some 5; nextRetryTime := Some 30005 |}
              30005) as (Hc' & _); try (vm_compute; reflexivity).
  vm_compute in Hc'. discriminate Hc'.
Qed.

(** C4, amended: on an open circuit a [recordSuccess] leaves the circuit
    open with its [nextRetryTime] and [lastFailureTime] as they were, so
    lookups before [nextRetryTime] still return no URL; it does reset the
    failure count to 0, add one to the success count, and set a
    registered entry to healthy with no consecutive failures and
    [lastCheck] at the time of the call. *)
Theorem success_while_open_keeps_circuit_open n now r s c :
  services r !! n = Some s ->
  circuitBreakers r !! n = Some c ->
  state c = OPEN ->
  circuitBreakers (recordSuccess n now r) !! n
  = Some {| state := OPEN; failures := 0; successes := successes c + 1;
            lastFailureTime := lastFailureTime c;
            nextRetryTime := nextRetryTime c |}
  /\ services (recordSuccess n now r) !! n
     = Some {| name := name s; url := url s; version := version s;
               status := HEALTHY; lastCheck := now; consecutiveFailures := 0;
               metadata := metadata s |}
  /\ (forall retry now',
        nextRetryTime c = Some retry ->
        now' < retry ->
        (getServiceUrl n now' (recordSuccess n now r)).1 = None).
Proof.
  intros Hs Hc Hst.
  assert (Hcirc : circuitBreakers (recordSuccess n now r) !! n
                  = Some {| state := OPEN; failures := 0;
                            successes := successes c + 1;
                            lastFailureTime := lastFailureTime c;
                            nextRetryTime := nextRetryTime c |}).
  { unfold recordSuccess. rewrite Hc. cbn. rewrite Hs. cbn.
    rewrite lookup_insert_eq. unfold successCircuit. by rewrite Hst. }
  assert (Hserv : services (recordSuccess n now r) !! n
                  = Some (successService now s)).
  { unfold recordSuccess. rewrite Hc. cbn. rewrite Hs. cbn.
    by rewrite lookup_insert_eq. }
  repeat split; [done | done |].
  intros retry now' Hretry Hnow'.
  unfold getServiceUrl. rewrite Hserv, Hcirc. cbn. rewrite Hretry.
  by destruct (Z.leb_spec retry now'); [lia|].
Qed.

Lemma success_while_open_keeps_circuit_open_witness :
  getCircuitState "reports" (recordSuccess "reports" 1000 reportsOpen)
  = Some OPEN
  /\ (getServiceUrl "reports" 2000 (recordSuccess "reports" 1000 reportsOpen)).1
     = None.
Proof.
  destruct (success_while_open_keeps_circuit_open "reports" 1000 reportsOpen
              {| name := "reports"; url := "http://localhost:3007";
                 version := None; status := UNHEALTHY; lastCheck := 5;
                 consecutiveFailures := 5; metadata := None |}
              {| state := OPEN; failures := 5; successes := 0;
                 lastFailureTime := Some 5; nextRetryTime := Some 30005 |})
    as (Hc & _ & Hurl); try (vm_compute; reflexivity).
  split.
  - unfold getCircuitState. by rewrite Hc.
  - apply (Hurl 30005); [reflexivity | lia].
Defined.

(** C10: for a name that was never registered (it is in neither map),
    [getServiceUrl] returns null, [getCircuitState] returns no state, and
    [recordSuccess] and [recordFailure] leave the registry as it was: no
    call throws, none creates an entry. *)
Theorem unknown_service_is_inert n r :
  services r !! n = None ->
  circuitBreakers r !! n = None ->
  (forall now, getServiceUrl n now r = (None, r))
  /\ getCircuitState n r = None
  /\ (forall now, recordSuccess n now r = r)
  /\ (forall clk, recordFailure n clk r = r).
Proof.
  intros Hs Hc. repeat split.
  - intros now. unfold getServiceUrl. by rewrite Hs.
  - unfold getCircuitState. by rewrite Hc.
  - intros now. unfold recordSuccess. by rewrite Hc.
  - intros clk. unfold recordFailure. by rewrite Hc.
Qed.

Lemma unknown_service_is_inert_witness :
  getServiceUrl "billing" 10 reportsRegistry = (None, reportsRegistry)
  /\ getCircuitState "billing" reportsRegistry = None
  /\ recordSuccess "billing" 10 reportsRegistry = reportsRegistry
  /\ recordFailure "billing" (clockAt 10) reportsRegistry = reportsRegistry.
Proof.
  destruct (unknown_service_is_inert "billing" reportsRegistry)
    as (Hurl & Hstate & Hsuccess & Hfailure); try (vm_compute; reflexivity).
  split; [apply Hurl|]. split; [apply Hstate|].
  split; [apply Hsuccess | apply Hfailure].
Defined.

End RegistryTheory.

(** * Properties of the job scheduler *)

Section SchedulerTheory.
Import Js Scheduler.
Context `{JobsService} (svc : Services).

Lemma set_isRunning_same w : set_isRunning (isRunning w) w = w.
Proof. by destruct w. Qed.

(** C5: while the in-progress flag is set, an invocation of
    [processJobs] returns at once: the store, the log of calls (no queue
    read, no claim, no execution, no promotion) and the flag are as they
    were, and no further cycle is put in flight. *)
Theorem processJobs_skips_while_running now w :
  isRunning w = true ->
  processJobs svc now w = w
  /\ calls (processJobs svc now w) = calls w
  /\ db (processJobs svc now w) = db w
  /\ isRunning (processJobs svc now w) = true
  /\ forall n, tick {| world := w; inFlight := n |} = {| world := w; inFlight := n |}.
Proof.
  intros Hrun.
  assert (Hskip : processJobs svc now w = w).
  { unfold processJobs. by rewrite Hrun. }
  rewrite Hskip. repeat split; try done.
  intros n. unfold tick. cbn. by rewrite Hrun.
Qed.

(** An invocation that passes the guard is one tick followed by the
    completion of the cycle it started. *)
Lemma processJobs_tick_complete now w :
  isRunning w = false ->
  processJobs svc now w
  = world (complete svc now (tick {| world := w; inFlight := 0 |})).
Proof.
  intros Hrun. unfold processJobs, tick, complete. cbn. by rewrite Hrun.
Qed.

Lemma step_guarded rt rt' : guarded rt -> step svc rt rt' -> guarded rt'.
Proof.
  intros Hg Hstep. destruct Hstep as [rt|now rt Hpos].
  - unfold tick. destruct Hg as [[Hrun Hn]|[Hrun Hn]]; rewrite Hrun.
    + by left.
    + left. cbn. by rewrite Hn.
  - destruct Hg as [[Hrun Hn]|[Hrun Hn]]; [|lia].
    unfold complete. rewrite Hn. by right.
Qed.

Lemma steps_guarded rt rt' : rtc (step svc) rt rt' -> guarded rt -> guarded rt'.
Proof.
  induction 1 as [|rt0 rt1 rt2 Hstep _ IH]; [done|].
  intros Hg. eapply IH, step_guarded; eauto.
Qed.

(** In every state the scheduler can reach, at most one cycle is in
    flight, and the flag tells whether one is. *)
Lemma at_most_one_cycle_in_flight d rt :
  rtc (step svc) (initial d) rt -> guarded rt.
Proof. intros Hreach. eapply steps_guarded; [done | by right]. Qed.

(** A timer tick that arrives while a cycle is in flight starts
    nothing. *)
Lemma tick_during_cycle d rt :
  rtc (step svc) (initial d) rt ->
  (0 < inFlight rt)%nat ->
  inFlight rt = 1%nat /\ tick rt = rt.
Proof.
  intros Hreach Hpos.
  destruct (at_most_one_cycle_in_flight d rt Hreach) as [[Hrun Hn]|[_ Hn]];
    [|lia].
  split; [done|]. unfold tick. by rewrite Hrun.
Qed.

Lemma dueForPromotion_spec now j :
  dueForPromotion now j = true
  <-> Job.status j = delayed /\ exists d, Job.delayUntil j = Some d /\ d <= now.
Proof.
  unfold dueForPromotion. rewrite andb_true_iff, bool_decide_eq_true.
  destruct (Job.delayUntil j) as [d|].
  - rewrite Z.leb_le. split.
    + intros [? ?]. eauto.
    + intros [? (d' & [= <-] & ?)]. done.
  - split; [intros [_ [=]] | intros [_ (d' & [=] & _)]].
Qed.

(** C6: the promotion step sets [status] to pending and clears
    [delayUntil] for exactly the jobs that are delayed with
    [delayUntil <= now]; every other job, pending ones included, is left
    as it was; no delayed job comes out active. *)
Theorem delayed_promotion_is_exact now w :
  exists w',
    promoteDelayedJobs now w = (Returned tt, w')
    /\ isRunning w' = isRunning w
    /\ jobQueue (db w') = jobQueue (db w)
    /\ length (job (db w')) = length (job (db w))
    /\ forall i j,
         job (db w) !! i = Some j ->
         exists j',
           job (db w') !! i = Some j'
           /\ ((Job.status j = delayed
                /\ exists d, Job.delayUntil j = Some d /\ d <= now) ->
               j' = {| Job.id := Job.id j; Job.queueId := Job.queueId j;
                       Job.name := Job.name j; Job.data := Job.data j;
                       Job.status := pending; Job.priority := Job.priority j;
                       Job.attempts := Job.attempts j;
                       Job.maxAttempts := Job.maxAttempts j;
                       Job.delayUntil := None;
                       Job.lastError := Job.lastError j;
                       Job.result := Job.result j;
                       Job.createdAt := Job.createdAt j |})
           /\ (~ (Job.status j = delayed
                  /\ exists d, Job.delayUntil j = Some d /\ d <= now) ->
               j' = j)
           /\ (Job.status j = pending -> j' = j)
           /\ (Job.status j = delayed -> Job.status j' <> active).
Proof.
  eexists. split; [reflexivity|]. cbn.
  repeat split; [by rewrite length_fmap|].
  intros i j Hj. rewrite list_lookup_fmap, Hj. cbn.
  eexists. split; [reflexivity|].
  pose proof (dueForPromotion_spec now j) as Hdue.
  destruct (dueForPromotion now j) eqn:Hd.
  - assert (Hst : Job.status j = delayed) by (by apply Hdue).
    repeat split; try done.
    + intros Hnot. destruct Hnot. by apply Hdue.
    + intros Hp. congruence.
  - assert (Hnot : ~ (Job.status j = delayed
                      /\ exists d, Job.delayUntil j = Some d /\ d <= now)).
    { intros Hyes. apply Hdue in Hyes. discriminate. }
    repeat split; try done. intros Hst. congruence.
Qed.

(** One claimed job whose handler returns and whose two status
    transitions are accepted by the store: the loop claims it, executes
    it and marks it completed with the returned result. *)
Lemma processJob_completed job r w d1 d2 :
  markJobActive (Job.id job) (db w) = Returned d1 ->
  executeJob svc job = Returned r ->
  markJobCompleted (Job.id job) r d1 = Returned d2 ->
  processJob svc job w
  = (Returned tt,
     {| isRunning := isRunning w; db := d2;
        calls := calls w ++ [MarkJobActive (Job.id job); ExecuteJob (Job.id job);
                             MarkJobCompleted (Job.id job) r] |}).
Proof.
  intros Hactive Hexec Hdone.
  unfold processJob, tryCatch, bind, call, updateDb, await. cbn.
  rewrite Hactive. cbn. rewrite Hexec. cbn. rewrite Hdone. cbn.
  by rewrite <- !app_assoc.
Qed.

(** C7: a job whose name is none of the handler names executes without
    throwing and returns [{ status: 'skipped', reason: 'Unknown job
    type: <name>' }]; the dispatch loop then marks it completed with that
    result and does not mark it failed. *)
Theorem unknown_job_type_is_skipped job :
  Job.name job ∉ handlerNames ->
  executeJob svc job
  = Returned (result "skipped"
                [("reason", JsStr ("Unknown job type: " +:+ Job.name job))])
  /\ forall w d1 d2,
       markJobActive (Job.id job) (db w) = Returned d1 ->
       markJobCompleted (Job.id job)
         (result "skipped"
            [("reason", JsStr ("Unknown job type: " +:+ Job.name job))]) d1
       = Returned d2 ->
       processJob svc job w
       = (Returned tt,
          {| isRunning := isRunning w; db := d2;
             calls := calls w
                      ++ [MarkJobActive (Job.id job); ExecuteJob (Job.id job);
                          MarkJobCompleted (Job.id job)
                            (result "skipped"
                               [("reason",
                                 JsStr ("Unknown job type: " +:+ Job.name job))])]
          |}).
Proof.
  intros Hunknown.
  assert (Hexec : executeJob svc job
                  = Returned (result "skipped"
                      [("reason", JsStr ("Unknown job type: " +:+ Job.name job))])).
  { unfold executeJob.
    repeat (destruct (decide (Job.name job = _)) as [Hname|_];
            [exfalso; apply Hunknown; rewrite Hname; unfold handlerNames;
             set_solver|]).
    reflexivity. }
  split; [done|].
  intros w d1 d2 Hactive Hdone. by apply (processJob_completed job _ w d1 d2).
Qed.

Lemma injected_false {A} (service : option A) :
  injected service = false -> service = None.
Proof. by destruct service. Qed.

(** C8, amended: a job whose type is backed by an optional service that
    was not injected executes without throwing and returns a result with
    a status, [isMockMode: true] and a [mockModeReason], and the dispatch
    loop then marks it completed with that result, provided the handler
    gets past its first lines: its payload is neither [null] nor
    [undefined] and the property it logs converts to a string (any
    payload for the two handlers that never read it). *)
Theorem absent_service_yields_mock_result job :
  backingService svc (Job.name job) = Some false ->
  ignoresPayload (Job.name job)
  \/ readablePayload (Job.name job) (Job.data job) ->
  exists r,
    executeJob svc job = Returned r
    /\ isMockTagged r
    /\ JobResult.status r ∈ ["completed"; "sent"; "synced"; "generated"; "delivered"]
    /\ forall w d1 d2,
         markJobActive (Job.id job) (db w) = Returned d1 ->
         markJobCompleted (Job.id job) r d1 = Returned d2 ->
         processJob svc job w
         = (Returned tt,
            {| isRunning := isRunning w; db := d2;
               calls := calls w
                        ++ [MarkJobActive (Job.id job); ExecuteJob (Job.id job);
                            MarkJobCompleted (Job.id job) r] |}).
Proof.
  intros Hback Hpayload.
  assert (Hexec : exists r,
            executeJob svc job = Returned r /\ isMockTagged r
            /\ JobResult.status r
               ∈ ["completed"; "sent"; "synced"; "generated"; "delivered"]).
  { unfold backingService in Hback.
    unfold executeJob, ignoresPayload, readablePayload in *.
    destruct job as [i q name data st prio att maxAtt du le res created].
    cbn in *.
    repeat case_decide; simplify_eq;
      match goal with
      | Hinj : injected _ = false |- _ => apply injected_false in Hinj
      end.
    all: unfold runEvidenceCollector, sendScheduledNotifications, sendEmail,
           syncJira, syncServiceNow, generateExport, generateReport,
           cleanupExpiredSessions, runRetentionPolicies, deliverWebhook;
         match goal with Hinj : _ svc = None |- _ => rewrite Hinj end.
    all: destruct Hpayload as [[Hname|Hname]|(Hnull & Hundef & Hlogged)];
         try discriminate Hname.
    all: try (unfold requirePrimitive;
              rewrite (Hlogged _ eq_refl)).
    all: try (destruct data; try done; cbn).
    all: eexists; (split; [reflexivity|]); split;
         [split; [done | by eexists] | cbn; set_solver]. }
  destruct Hexec as (r & Hexec & Htag & Hstatus).
  exists r. split; [done|]. split; [done|]. split; [done|].
  intros w d1 d2 Hactive Hdone. by apply (processJob_completed job r w d1 d2).
Qed.

End SchedulerTheory.

(** * The theorems on the sample deployment *)

Section SchedulerSamples.
Import Js Scheduler.

Lemma processJobs_skips_while_running_witness :
  @processJobs sampleJobsService noServices 700
    {| isRunning := true; db := sampleDb; calls := [] |}
  = {| isRunning := true; db := sampleDb; calls := [] |}.
Proof.
  exact (proj1 (@processJobs_skips_while_running sampleJobsService noServices
                  700 {| isRunning := true; db := sampleDb; calls := [] |}
                  eq_refl)).
Defined.

Lemma unknown_job_type_is_skipped_witness :
  executeJob noServices unknownJob
  = Returned (result "skipped"
                [("reason", JsStr "Unknown job type: reticulate-splines")]).
Proof.
  apply (@unknown_job_type_is_skipped sampleJobsService noServices unknownJob).
  compute_done.
Defined.

(** C8 as stated fails: with no email service injected, an email job
    whose payload is [null] throws on the destructuring of its payload,
    and one whose recipient has no conversion to a string throws on the
    first log line; both before the handler tests the service. *)
Lemma absent_service_can_throw :
  backingService noServices "send-email" = Some false
  /\ (exists e, executeJob noServices nullEmailJob = Thrown e)
  /\ ~ absent_service_never_throws noServices nullEmailJob
  /\ (exists e, executeJob noServices unprintableEmailJob = Thrown e)
  /\ ~ absent_service_never_throws noServices unprintableEmailJob.
Proof.
  split; [reflexivity|]. split; [by eexists|]. split.
  { intros Hclaim. destruct (Hclaim eq_refl) as (r & Hexec & _).
    discriminate Hexec. }
  split; [by eexists|].
  intros Hclaim. destruct (Hclaim eq_refl) as (r & Hexec & _).
  discriminate Hexec.
Qed.

Lemma absent_service_yields_mock_result_witness :
  exists r,
    executeJob noServices emailJob = Returned r
    /\ JobResult.isMockMode r = Some true
    /\ JobResult.mockModeReason r = Some "EmailService not injected".
Proof.
  destruct (@absent_service_yields_mock_result sampleJobsService noServices
              emailJob) as (r & Hexec & _).
  - reflexivity.
  - right. split; [discriminate|]. split; [discriminate|].
    intros v Hv. vm_compute in Hv. by injection Hv as <-.
  - exists r. split; [exact Hexec|].
    vm_compute in Hexec. injection Hexec as <-. by split.
Defined.

End SchedulerSamples.

(** * Further properties of the error utilities *)

Section ErrorsFurther.
Import Js Errors.
Context `{NumberToString}.

Lemma newDomainError_props msg code statusCode details :
  props (newDomainError msg code statusCode details) !! "code"
  = Some (match code with JsUndefined => JsStr "DOMAIN_ERROR" | v => v end)
  /\ props (newDomainError msg code statusCode details) !! "statusCode"
     = Some (match statusCode with JsUndefined => JsNum 400 | v => v end)
  /\ props (newDomainError msg code statusCode details) !! "details"
     = Some details.
Proof. unfold newDomainError. cbn. by simplify_map_eq. Qed.

Lemma getErrorCode_newDomainError msg code statusCode details :
  getErrorCode (ErrorValue (newDomainError msg code statusCode details))
  = Normal (match code with JsUndefined => JsStr "DOMAIN_ERROR" | v => v end).
Proof.
  destruct (newDomainError_props msg code statusCode details) as (Hcode & _).
  unfold getErrorCode. cbn [isDomainError domain newDomainError].
  unfold propOf. by rewrite Hcode.
Qed.

Lemma getStatusCode_newDomainError msg code statusCode details :
  getStatusCode (ErrorValue (newDomainError msg code statusCode details))
  = match statusCode with JsUndefined => JsNum 400 | v => v end.
Proof.
  destruct (newDomainError_props msg code statusCode details) as (_ & Hstatus & _).
  unfold getStatusCode. cbn [isDomainError domain newDomainError].
  unfold propOf. by rewrite Hstatus.
Qed.

(** X1: the error utilities read back from a [DomainError] what its
    constructor was given: the message, the code (['DOMAIN_ERROR'] when
    none was given), the status code (400 when none was given) and the
    details ([toErrorDetails] without the stack). *)
Theorem DomainError_read_back msg code statusCode details :
  let error := ErrorValue (newDomainError msg code statusCode details) in
  isDomainError error = true
  /\ getErrorMessage error = Normal msg
  /\ getErrorCode error
     = Normal (match code with JsUndefined => JsStr "DOMAIN_ERROR" | v => v end)
  /\ getStatusCode error
     = match statusCode with JsUndefined => JsNum 400 | v => v end
  /\ toErrorDetails error false
     = Normal
         {| detailsMessage := msg;
            detailsCode :=
              match code with JsUndefined => JsStr "DOMAIN_ERROR" | v => v end;
            detailsStatusCode :=
              match statusCode with JsUndefined => JsNum 400 | v => v end;
            detailsDetails := details;
            detailsStack := JsUndefined |}.
Proof.
  intros error.
  destruct (newDomainError_props msg code statusCode details)
    as (_ & _ & Hdetails).
  split; [done|]. split; [done|].
  split; [apply getErrorCode_newDomainError|].
  split; [apply getStatusCode_newDomainError|].
  unfold toErrorDetails, error.
  rewrite getErrorCode_newDomainError, getStatusCode_newDomainError.
  cbn [isDomainError domain newDomainError getErrorMessage message
       mbind mret Completion_bind Completion_ret andb].
  unfold propOf. by rewrite Hdetails.
Qed.

Lemma DomainError_newDomainError msg code statusCode details :
  DomainError msg code statusCode details
  = newDomainError msg (JsStr code) statusCode details.
Proof. reflexivity. Qed.

Lemma orElse_truthy a b : truthy b = true -> truthy (orElse a b) = true.
Proof. intros Hb. unfold orElse. by destruct (truthy a) eqn:Ha. Qed.

Lemma orElse_self a b : truthy a = true -> orElse a b = a.
Proof. intros Ha. unfold orElse. by rewrite Ha. Qed.

Lemma getErrorCode_throws error e :
  getErrorCode error = Throw e -> e = cannotConvert.
Proof.
  unfold getErrorCode.
  destruct (isDomainError error); [discriminate|].
  destruct (isPrismaError error); [discriminate|].
  destruct (isObject error && hasProp "code" error); [|discriminate].
  destruct (stringOf (propOf "code" error)) as [code|thrown] eqn:Hcode;
    [discriminate|].
  cbn. intros [= <-]. by apply stringOf_throws in Hcode.
Qed.

(** X2: [withErrorHandling] passes a resolved value through.  A
    rejection with a value whose message and code can be read becomes a
    [DomainError] that keeps the message and has a truthy code, the
    caught value's own when that is truthy; wrapping the wrapped
    operation again (same context) changes nothing more.  A rejection
    with a value whose message or code has no conversion to a string
    makes the wrapper reject with the [TypeError] of that conversion,
    which is no [DomainError]. *)
Theorem withErrorHandling_wraps_once {S T : Type} (fn : S -> Settled T * S)
    (context : option string) (s : S) :
  (forall value s',
     fn s = (Resolved value, s') ->
     withErrorHandling fn context s = (Resolved value, s')
     /\ withErrorHandling (withErrorHandling fn context) context s
        = (Resolved value, s'))
  /\ (forall error s' msg code,
        fn s = (Rejected error, s') ->
        getErrorMessage error = Normal msg ->
        getErrorCode error = Normal code ->
        exists wrapped,
          withErrorHandling fn context s = (Rejected (ErrorValue wrapped), s')
          /\ domain wrapped = true
          /\ message wrapped = msg
          /\ getErrorCode (ErrorValue wrapped)
             = Normal (orElse code (JsStr "OPERATION_FAILED"))
          /\ truthy (orElse code (JsStr "OPERATION_FAILED")) = true
          /\ (truthy code = true ->
              orElse code (JsStr "OPERATION_FAILED") = code)
          /\ withErrorHandling (withErrorHandling fn context) context s
             = withErrorHandling fn context s)
  /\ (forall error s' e,
        fn s = (Rejected error, s') ->
        getErrorMessage error = Throw e \/ getErrorCode error = Throw e ->
        withErrorHandling fn context s = (Rejected cannotConvert, s')
        /\ isDomainError cannotConvert = false).
Proof.
  assert (Hop : truthy (JsStr "OPERATION_FAILED") = true) by done.
  split; [|split].
  - intros value s' Hfn. unfold withErrorHandling. by rewrite Hfn.
  - intros error s' msg code Hfn Hmsg Hcode.
    pose proof (orElse_truthy code _ Hop) as Htruthy.
    assert (Hwrapped : withErrorHandling fn context s
              = (Rejected
                   (ErrorValue
                      (newDomainError msg
                         (orElse code (JsStr "OPERATION_FAILED"))
                         (getStatusCode error)
                         (JsObj (<["context" :=
                                     from_option JsStr JsUndefined context]>
                                   (<["originalError" := JsStr msg]> ∅))))),
                 s')).
    { unfold withErrorHandling. rewrite Hfn, Hmsg, Hcode. reflexivity. }
    eexists. split; [exact Hwrapped|].
    split; [done|]. split; [done|].
    split.
    { rewrite getErrorCode_newDomainError.
      by destruct (orElse code (JsStr "OPERATION_FAILED")). }
    split; [done|]. split; [apply orElse_self|].
    unfold withErrorHandling at 1. rewrite Hwrapped.
    rewrite getErrorCode_newDomainError, getStatusCode_newDomainError.
    cbn [getErrorMessage message newDomainError
         mbind mret Completion_bind Completion_ret thrown].
    set (code' := orElse code (JsStr "OPERATION_FAILED")) in *.
    clearbody code'.
    destruct (getStatusCode error); destruct code'; try discriminate Htruthy;
      unfold orElse; rewrite ?Htruthy; reflexivity.
  - intros error s' e Hfn Hthrows. split; [|done].
    unfold withErrorHandling. rewrite Hfn.
    destruct (getErrorMessage error) as [msg|thrown] eqn:Hmsg.
    + destruct Hthrows as [Hthrows|Hthrows]; [discriminate|].
      rewrite Hthrows. cbn. by apply getErrorCode_throws in Hthrows as ->.
    + cbn. by apply getErrorMessage_throws in Hmsg as ->.
Qed.

End ErrorsFurther.

Section RetryFurther.
Import Js Errors.
Context `{NumberToString} {S T : Type} (fn : S -> Settled T * S)
        (options : RetryOptions) (context : option string).


(** X4: no wait of [retryAsync] is longer than [maxDelayMs] (30000 when
    not given), and with a non-negative base delay the waits never get
    shorter from one attempt to the next. *)
Theorem retryAsync_waits_bounded (s : S) (n : nat) (d : Z) :
  delays (retryAsync fn options context s).2 !! n = Some d ->
  d <= default 30000 (maxDelayMs options)
  /\ (0 <= baseDelayMs options ->
      forall (m : nat) d',
        (n <= m)%nat ->
        delays (retryAsync fn options context s).2 !! m = Some d' ->
        d <= d').
Proof.
  unfold retryAsync.
  destruct (retryFrom_delays fn options context 0 (OtherValue JsUndefined) s [])
    as (k & Hk & _ & Hdelays).
  rewrite Hdelays. change (delays [] ++ ?l) with l.
  rewrite list_lookup_fmap. intros Hn.
  destruct (seqZ 0 k !! n) as [i|] eqn:Hi; [|done].
  apply lookup_seqZ in Hi as [-> Hi]. injection Hn as <-.
  split; [unfold delayMs, maxDelay; lia|].
  intros Hbase m d' Hnm. rewrite list_lookup_fmap. intros Hm.
  destruct (seqZ 0 k !! m) as [j|] eqn:Hj; [|done].
  apply lookup_seqZ in Hj as [-> Hj]. injection Hm as <-.
  unfold delayMs. apply Z.min_le_compat_r, Z.mul_le_mono_nonneg_l; [done|].
  apply Z.pow_le_mono_r; lia.
Qed.

End RetryFurther.

Lemma retryAsync_waits_bounded_witness :
  2000 <= default 30000 (Errors.maxDelayMs Errors.threeRetries).
Proof.
  exact (proj1 (@retryAsync_waits_bounded Errors.printDecimal _ _
                  Errors.alwaysRejects Errors.threeRetries None 0%nat 1%nat
                  2000 eq_refl)).
Defined.

(** * Further properties of the service registry *)

Section RegistryFurther.
Import Registry.

Implicit Types (n : string) (r : ServiceRegistry) (c : CircuitBreakerState).

Lemma recordSuccess_circuit n now r c :
  circuitBreakers r !! n = Some c ->
  circuitBreakers (recordSuccess n now r) !! n
  = Some (successCircuit (circuitConfig r) c).
Proof.
  intros Hc. unfold recordSuccess. rewrite Hc. cbn.
  destruct (services r !! n); cbn; apply lookup_insert_eq.
Qed.

Lemma recordSuccess_config n now r :
  circuitConfig (recordSuccess n now r) = circuitConfig r.
Proof.
  unfold recordSuccess. destruct (circuitBreakers r !! n); [|done].
  cbn. by destruct (services r !! n).
Qed.

Lemma recordSuccess_service n now r c :
  circuitBreakers r !! n = Some c ->
  services (recordSuccess n now r) !! n = successService now <$> services r !! n.
Proof.
  intros Hc. unfold recordSuccess. rewrite Hc. cbn.
  destruct (services r !! n) eqn:Hs; cbn; [by rewrite lookup_insert_eq | done].
Qed.

Lemma recordFailure_service n clk r c :
  circuitBreakers r !! n = Some c ->
  services (recordFailure n clk r) !! n
  = failureService
      (state (failureCircuit (circuitConfig r) (atFailure clk) (atTrip clk) c))
      (atCheck clk) <$> services r !! n.
Proof.
  intros Hc. unfold recordFailure. rewrite Hc. cbn.
  destruct (services r !! n) eqn:Hs; cbn; [by rewrite lookup_insert_eq | done].
Qed.

Lemma successCircuit_half_open_below cfg c :
  state c = HALF_OPEN ->
  successes c + 1 < successThreshold cfg ->
  successCircuit cfg c
  = {| state := HALF_OPEN; failures := 0; successes := successes c + 1;
       lastFailureTime := lastFailureTime c; nextRetryTime := nextRetryTime c |}.
Proof.
  intros Hst Hlt. unfold successCircuit. cbn. rewrite Hst. cbn.
  destruct (Z.leb_spec (successThreshold cfg) (successes c + 1)); [lia | done].
Qed.

Lemma successCircuit_half_open_reach cfg c :
  state c = HALF_OPEN ->
  successThreshold cfg <= successes c + 1 ->
  successCircuit cfg c
  = {| state := CLOSED; failures := 0; successes := 0;
       lastFailureTime := lastFailureTime c; nextRetryTime := nextRetryTime c |}.
Proof.
  intros Hst Hle. unfold successCircuit. cbn. rewrite Hst. cbn.
  destruct (Z.leb_spec (successThreshold cfg) (successes c + 1)); [done | lia].
Qed.

Lemma recordSuccesses_snoc n nows last r :
  recordSuccesses n (nows ++ [last]) r
  = recordSuccess n last (recordSuccesses n nows r).
Proof. unfold recordSuccesses. by rewrite foldl_app. Qed.

(** A run of successes that stays below the threshold leaves a half-open
    circuit half-open and counts every call. *)
Lemma recordSuccesses_below n nows : forall r c,
  circuitBreakers r !! n = Some c ->
  state c = HALF_OPEN ->
  successes c + Z.of_nat (length nows) < successThreshold (circuitConfig r) ->
  exists c',
    circuitBreakers (recordSuccesses n nows r) !! n = Some c'
    /\ circuitConfig (recordSuccesses n nows r) = circuitConfig r
    /\ state c' = HALF_OPEN
    /\ successes c' = successes c + Z.of_nat (length nows)
    /\ lastFailureTime c' = lastFailureTime c
    /\ nextRetryTime c' = nextRetryTime c.
Proof.
  induction nows as [|now nows IH]; intros r c Hc Hst Hlt.
  - exists c. cbn. split; [done|]. split; [done|]. split; [done|].
    split; [lia | done].
  - cbn [recordSuccesses foldl length] in *.
    pose proof (recordSuccess_circuit n now r c Hc) as Hc1.
    rewrite successCircuit_half_open_below in Hc1 by (done || lia).
    destruct (IH _ _ Hc1 eq_refl) as (c' & Hc' & Hcfg & Hst' & Hs & Hl & Hn).
    { rewrite recordSuccess_config. cbn. lia. }
    exists c'. unfold recordSuccesses in *.
    rewrite Hc', Hcfg, recordSuccess_config. cbn in Hs, Hl, Hn.
    split; [done|]. split; [done|]. split; [done|]. split; [lia | done].
Qed.

(** X5: on a half-open circuit, consecutive [recordSuccess] calls leave
    the circuit half-open as long as the success count stays below
    [successThreshold]; the call that makes the count reach
    [successThreshold] closes the circuit with both counters at zero. *)
Theorem half_open_closes_at_successThreshold n r c :
  circuitBreakers r !! n = Some c ->
  state c = HALF_OPEN ->
  (forall nows,
     successes c + Z.of_nat (length nows) < successThreshold (circuitConfig r) ->
     exists c',
       circuitBreakers (recordSuccesses n nows r) !! n = Some c'
       /\ state c' = HALF_OPEN
       /\ successes c' = successes c + Z.of_nat (length nows))
  /\ (forall nows last,
        successes c + Z.of_nat (length nows) + 1
        = successThreshold (circuitConfig r) ->
        exists c',
          circuitBreakers (recordSuccesses n (nows ++ [last]) r) !! n = Some c'
          /\ state c' = CLOSED
          /\ failures c' = 0
          /\ successes c' = 0).
Proof.
  intros Hc Hst. split.
  - intros nows Hlt.
    destruct (recordSuccesses_below n nows r c Hc Hst Hlt)
      as (c' & Hc' & _ & Hst' & Hs & _).
    by exists c'.
  - intros nows last Hreach.
    destruct (recordSuccesses_below n nows r c Hc Hst)
      as (c' & Hc' & Hcfg & Hst' & Hs & _); [lia|].
    rewrite recordSuccesses_snoc.
    eexists. split.
    { apply recordSuccess_circuit, Hc'. }
    rewrite Hcfg, successCircuit_half_open_reach by (done || lia).
    done.
Qed.

Lemma successCircuit_closed cfg c :
  state c = CLOSED ->
  successCircuit cfg c
  = {| state := CLOSED; failures := 0; successes := successes c + 1;
       lastFailureTime := lastFailureTime c; nextRetryTime := nextRetryTime c |}.
Proof. intros Hst. unfold successCircuit. cbn. by rewrite Hst. Qed.

(** X6: only consecutive failures trip a closed circuit: after a
    [recordSuccess], however many failures came before it, a run of
    fewer than [failureThreshold] failures leaves the circuit closed. *)
Theorem success_resets_failure_count n now clks r c :
  circuitBreakers r !! n = Some c ->
  state c = CLOSED ->
  Z.of_nat (length clks) < failureThreshold (circuitConfig r) ->
  exists c',
    circuitBreakers (recordFailures n clks (recordSuccess n now r)) !! n = Some c'
    /\ state c' = CLOSED
    /\ failures c' = Z.of_nat (length clks).
Proof.
  intros Hc Hst Hlt.
  pose proof (recordSuccess_circuit n now r c Hc) as Hc1.
  rewrite successCircuit_closed in Hc1 by done.
  destruct (recordFailures_below n clks _ _ Hc1 eq_refl)
    as (c' & Hc' & _ & Hst' & Hf & _).
  { rewrite recordSuccess_config. cbn. lia. }
  exists c'. cbn in Hf. split; [done|]. split; [done | lia].
Qed.

Lemma agreeAt_refl n r : agreeAt n r r.
Proof. done. Qed.

Lemma agreeAt_trans n r1 r2 r3 : agreeAt n r1 r2 -> agreeAt n r2 r3 -> agreeAt n r1 r3.
Proof. intros (? & ? & ?) (? & ? & ?). repeat split; congruence. Qed.

Lemma recordSuccess_other n n' now r : n <> n' -> agreeAt n' r (recordSuccess n now r).
Proof.
  intros Hne. unfold agreeAt, recordSuccess.
  destruct (circuitBreakers r !! n); [|done]. cbn.
  destruct (services r !! n); cbn; by rewrite ?lookup_insert_ne.
Qed.

Lemma recordFailure_other n n' clk r : n <> n' -> agreeAt n' r (recordFailure n clk r).
Proof.
  intros Hne. unfold agreeAt, recordFailure.
  destruct (circuitBreakers r !! n); [|done]. cbn.
  destruct (services r !! n); cbn; by rewrite ?lookup_insert_ne.
Qed.

Lemma getServiceUrl_other n n' now r :
  n <> n' -> agreeAt n' r (getServiceUrl n now r).2.
Proof.
  intros Hne. unfold agreeAt, getServiceUrl.
  destruct (services r !! n); [|done].
  destruct (circuitBreakers r !! n) as [c|]; [|done].
  destruct (decide (state c = OPEN)); [|done].
  destruct (nextRetryTime c) as [retry|]; [|done].
  destruct (retry <=? now); [|done].
  cbn. by rewrite lookup_insert_ne.
Qed.

Lemma register_other n n' u md now r :
  n <> n' -> agreeAt n' r (register n u md now r).
Proof.
  intros Hne. unfold agreeAt, register. cbn. by rewrite !lookup_insert_ne.
Qed.

(** X7: the bookkeeping of one service never touches another: after
    [register], [getServiceUrl], [recordSuccess] or [recordFailure] on a
    name, every other name has the entry and the circuit it had, and the
    configuration is the same. *)
Theorem other_services_untouched n n' r :
  n <> n' ->
  (forall u md now, agreeAt n' r (register n u md now r))
  /\ (forall now, agreeAt n' r (getServiceUrl n now r).2)
  /\ (forall now, agreeAt n' r (recordSuccess n now r))
  /\ (forall clk, agreeAt n' r (recordFailure n clk r)).
Proof.
  intros Hne. split; [|split; [|split]]; intros.
  - by apply register_other.
  - by apply getServiceUrl_other.
  - by apply recordSuccess_other.
  - by apply recordFailure_other.
Qed.

Lemma other_services_untouched_witness :
  agreeAt "reports" reportsOpen (recordSuccess "billing" 7 reportsOpen)
  /\ agreeAt "reports" reportsOpen
       (register "billing" "http://localhost:3008" None 7 reportsOpen).
Proof.
  destruct (other_services_untouched "billing" "reports" reportsOpen)
    as (Hregister & _ & Hsuccess & _); [discriminate|].
  split; [apply Hsuccess | apply Hregister].
Defined.

(** X8: [register] on any registry, also one where the name is already
    registered and its circuit is open, leaves the name with the given
    URL, status unknown, no consecutive failures and a closed circuit
    with zero counters; the next lookup returns the URL. *)
Theorem register_resets_service n u md now r :
  let r' := register n u md now r in
  services r' !! n
  = Some {| name := n; url := u; version := None; status := UNKNOWN;
            lastCheck := now; consecutiveFailures := 0; metadata := md |}
  /\ circuitBreakers r' !! n
     = Some {| state := CLOSED; failures := 0; successes := 0;
               lastFailureTime := None; nextRetryTime := None |}
  /\ forall now', getServiceUrl n now' r' = (Some u, r').
Proof.
  intros r'.
  assert (Hs : services r' !! n
               = Some {| name := n; url := u; version := None;
                         status := UNKNOWN; lastCheck := now;
                         consecutiveFailures := 0; metadata := md |}).
  { unfold r', register. cbn. by rewrite lookup_insert_eq. }
  assert (Hc : circuitBreakers r' !! n
               = Some {| state := CLOSED; failures := 0; successes := 0;
                         lastFailureTime := None; nextRetryTime := None |}).
  { unfold r', register. cbn. by rewrite lookup_insert_eq. }
  split; [done|]. split; [done|].
  intros now'. unfold getServiceUrl. by rewrite Hs, Hc.
Qed.

Lemma recordFailure_url n clk r :
  url <$> services (recordFailure n clk r) !! n = url <$> services r !! n.
Proof.
  unfold recordFailure. destruct (circuitBreakers r !! n); [|done]. cbn.
  destruct (services r !! n) eqn:Hs; cbn; [|by rewrite Hs].
  by rewrite lookup_insert_eq.
Qed.

Lemma recordSuccess_url n now r :
  url <$> services (recordSuccess n now r) !! n = url <$> services r !! n.
Proof.
  unfold recordSuccess. destruct (circuitBreakers r !! n); [|done]. cbn.
  destruct (services r !! n) eqn:Hs; cbn; [|by rewrite Hs].
  by rewrite lookup_insert_eq.
Qed.

Lemma recordFailures_url n clks : forall r,
  url <$> services (recordFailures n clks r) !! n = url <$> services r !! n.
Proof.
  induction clks as [|clk clks IH]; intros r; [done|].
  cbn [recordFailures foldl]. unfold recordFailures in IH.
  by rewrite IH, recordFailure_url.
Qed.

Lemma recordSuccesses_url n nows : forall r,
  url <$> services (recordSuccesses n nows r) !! n = url <$> services r !! n.
Proof.
  induction nows as [|now nows IH]; intros r; [done|].
  cbn [recordSuccesses foldl]. unfold recordSuccesses in IH.
  by rewrite IH, recordSuccess_url.
Qed.

(** The circuit after the run of failures that reaches the threshold. *)
Lemma recordFailures_reach n clks last r c :
  circuitBreakers r !! n = Some c ->
  state c = CLOSED ->
  failures c + Z.of_nat (length clks) + 1 = failureThreshold (circuitConfig r) ->
  circuitBreakers (recordFailures n (clks ++ [last]) r) !! n
  = Some {| state := OPEN; failures := failureThreshold (circuitConfig r);
            successes := 0; lastFailureTime := Some (atFailure last);
            nextRetryTime := Some (atTrip last + timeout (circuitConfig r)) |}
  /\ circuitConfig (recordFailures n (clks ++ [last]) r) = circuitConfig r.
Proof.
  intros Hc Hst Hreach.
  destruct (recordFailures_below n clks r c Hc Hst)
    as (c' & Hc' & Hcfg & Hst' & Hf & _); [lia|].
  rewrite recordFailures_snoc, recordFailure_config.
  split; [|done].
  rewrite (recordFailure_circuit _ _ _ _ Hc'), Hcfg.
  rewrite failureCircuit_closed_reach by (done || lia).
  do 2 f_equal. lia.
Qed.

Lemma getServiceUrl_not_open n now r s c :
  services r !! n = Some s ->
  circuitBreakers r !! n = Some c ->
  state c <> OPEN ->
  getServiceUrl n now r = (Some (url s), r).
Proof.
  intros Hs Hc Hst. unfold getServiceUrl. rewrite Hs, Hc.
  by destruct (decide (state c = OPEN)).
Qed.

(** X9: a full trip and recovery.  From a closed circuit, the run of
    failures that reaches [failureThreshold] makes every lookup before
    the retry time return no URL; the first lookup at or after the retry
    time returns the URL and leaves the circuit half-open; from there
    [successThreshold] consecutive successes close the circuit, and
    lookups return the URL again without changing the registry. *)
Theorem trip_and_recover n r s c fails lastFail oks lastOk tRetry :
  services r !! n = Some s ->
  circuitBreakers r !! n = Some c ->
  state c = CLOSED ->
  failures c + Z.of_nat (length fails) + 1 = failureThreshold (circuitConfig r) ->
  Z.of_nat (length oks) + 1 = successThreshold (circuitConfig r) ->
  atTrip lastFail + timeout (circuitConfig r) <= tRetry ->
  let r1 := recordFailures n (fails ++ [lastFail]) r in
  let r2 := (getServiceUrl n tRetry r1).2 in
  let r3 := recordSuccesses n (oks ++ [lastOk]) r2 in
  (forall now, now < atTrip lastFail + timeout (circuitConfig r) ->
     getServiceUrl n now r1 = (None, r1))
  /\ (getServiceUrl n tRetry r1).1 = Some (url s)
  /\ getCircuitState n r2 = Some HALF_OPEN
  /\ getCircuitState n r3 = Some CLOSED
  /\ forall now, getServiceUrl n now r3 = (Some (url s), r3).
Proof.
  intros Hs Hc Hst Hfail Hok Hretry r1 r2 r3.
  destruct (recordFailures_reach n fails lastFail r c Hc Hst Hfail)
    as [Hc1 Hcfg1]. fold r1 in Hc1, Hcfg1.
  pose proof (recordFailures_url n (fails ++ [lastFail]) r) as Hu1.
  fold r1 in Hu1. rewrite Hs in Hu1.
  destruct (services r1 !! n) as [s1|] eqn:Hs1; [|done].
  injection Hu1 as Hu1.
  (* the lookups on the open circuit *)
  assert (Hopen : forall now,
            getServiceUrl n now r1
            = if atTrip lastFail + timeout (circuitConfig r) <=? now
              then (Some (url s),
                    set_circuitBreakers
                      (insert n {| state := HALF_OPEN;
                                   failures := failureThreshold (circuitConfig r);
                                   successes := 0;
                                   lastFailureTime := Some (atFailure lastFail);
                                   nextRetryTime :=
                                     Some (atTrip lastFail
                                           + timeout (circuitConfig r)) |}) r1)
              else (None, r1)).
  { intros now. unfold getServiceUrl. rewrite Hs1, Hc1. cbn. by rewrite Hu1. }
  assert (Hr2 : r2 = set_circuitBreakers
                       (insert n {| state := HALF_OPEN;
                                    failures := failureThreshold (circuitConfig r);
                                    successes := 0;
                                    lastFailureTime := Some (atFailure lastFail);
                                    nextRetryTime :=
                                      Some (atTrip lastFail
                                            + timeout (circuitConfig r)) |}) r1).
  { unfold r2. rewrite Hopen.
    by destruct (Z.leb_spec (atTrip lastFail + timeout (circuitConfig r)) tRetry);
      [|lia]. }
  assert (Hc2 : circuitBreakers r2 !! n
                = Some {| state := HALF_OPEN;
                          failures := failureThreshold (circuitConfig r);
                          successes := 0;
                          lastFailureTime := Some (atFailure lastFail);
                          nextRetryTime :=
                            Some (atTrip lastFail + timeout (circuitConfig r)) |}).
  { rewrite Hr2. cbn. by rewrite lookup_insert_eq. }
  assert (Hs2 : services r2 !! n = Some s1) by (by rewrite Hr2).
  assert (Hcfg2 : circuitConfig r2 = circuitConfig r) by (by rewrite Hr2).
  (* the run of successes *)
  destruct (recordSuccesses_below n oks r2 _ Hc2 eq_refl)
    as (c3 & Hc3 & Hcfg3 & Hst3 & Hsucc3 & _).
  { rewrite Hcfg2. cbn. lia. }
  assert (Hc4 : circuitBreakers r3 !! n
                = Some (successCircuit (circuitConfig r) c3)).
  { unfold r3. rewrite recordSuccesses_snoc.
    rewrite (recordSuccess_circuit _ _ _ _ Hc3). by rewrite Hcfg3, Hcfg2. }
  rewrite successCircuit_half_open_reach in Hc4
    by (done || (cbn in Hsucc3; lia)).
  pose proof (recordSuccesses_url n (oks ++ [lastOk]) r2) as Hu3.
  fold r3 in Hu3. rewrite Hs2 in Hu3.
  destruct (services r3 !! n) as [s3|] eqn:Hs3; [|done].
  injection Hu3 as Hu3.
  split.
  { intros now Hnow. rewrite Hopen.
    by destruct (Z.leb_spec (atTrip lastFail + timeout (circuitConfig r)) now);
      [lia|]. }
  split.
  { rewrite Hopen.
    by destruct (Z.leb_spec (atTrip lastFail + timeout (circuitConfig r)) tRetry);
      [|lia]. }
  split; [unfold getCircuitState; by rewrite Hc2|].
  split; [unfold getCircuitState; by rewrite Hc4|].
  intros now. rewrite (getServiceUrl_not_open n now r3 s3 _ Hs3 Hc4) by done.
  by rewrite Hu3, Hu1.
Qed.

Lemma countStatus_partition (entries : list ServiceInfo) :
  Z.of_nat (length entries)
  = countStatus HEALTHY entries + countStatus DEGRADED entries
    + countStatus UNHEALTHY entries + countStatus UNKNOWN entries.
Proof.
  unfold countStatus. induction entries as [|s entries IH]; [done|].
  rewrite !filter_cons. cbn [length].
  destruct (status s); repeat case_decide; try done; cbn [length]; lia.
Qed.

(** X10: the health summary counts every registered service exactly
    once: [total] is the number of entries of the registry, and it is the
    sum of the healthy, degraded and unhealthy counts and the number of
    entries whose status is still unknown; the listed entries are the
    entries of the registry. *)
Theorem health_summary_counts r :
  let h := getHealthSummary r in
  total h = Z.of_nat (size (services r))
  /\ total h
     = healthy h + degraded h + unhealthy h
       + countStatus UNKNOWN (summaryServices h)
  /\ healthy h + degraded h + unhealthy h <= total h
  /\ forall s, s ∈ summaryServices h <-> exists n, services r !! n = Some s.
Proof.
  intros h. unfold h, getHealthSummary. cbn.
  pose proof (countStatus_partition (getAllServices r)) as Hsum.
  split; [unfold getAllServices; by rewrite length_fmap, length_map_to_list|].
  split; [done|]. split; [unfold countStatus in *; lia|].
  intros s. unfold getAllServices. rewrite list_elem_of_fmap. split.
  - intros ([n s'] & -> & Hin). exists n. by apply elem_of_map_to_list.
  - intros (n & Hn). exists (n, s). split; [done|].
    by apply elem_of_map_to_list.
Qed.

Lemma recordSuccess_agree n now r r' :
  agreeAt n r r' -> agreeAt n (recordSuccess n now r) (recordSuccess n now r').
Proof.
  intros (Hs & Hc & Hcfg). unfold agreeAt.
  rewrite !recordSuccess_config.
  destruct (circuitBreakers r !! n) as [c|] eqn:Hcr; symmetry in Hc.
  - rewrite (recordSuccess_circuit n now r c Hcr).
    rewrite (recordSuccess_service n now r c Hcr).
    rewrite (recordSuccess_circuit n now r' c Hc).
    rewrite (recordSuccess_service n now r' c Hc).
    by rewrite Hs, Hcfg.
  - unfold recordSuccess. rewrite Hcr, Hc. repeat split; congruence.
Qed.

Lemma recordFailure_agree n clk r r' :
  agreeAt n r r' -> agreeAt n (recordFailure n clk r) (recordFailure n clk r').
Proof.
  intros (Hs & Hc & Hcfg). unfold agreeAt.
  rewrite !recordFailure_config.
  destruct (circuitBreakers r !! n) as [c|] eqn:Hcr; symmetry in Hc.
  - rewrite (recordFailure_circuit n clk r c Hcr).
    rewrite (recordFailure_service n clk r c Hcr).
    rewrite (recordFailure_circuit n clk r' c Hc).
    rewrite (recordFailure_service n clk r' c Hc).
    by rewrite Hs, Hcfg.
  - unfold recordFailure. rewrite Hcr, Hc. repeat split; congruence.
Qed.

Lemma checkService_agree turn n s r r' :
  agreeAt n r r' ->
  agreeAt n (checkService turn (n, s) r) (checkService turn (n, s) r').
Proof.
  intros Hagree. unfold checkService. cbn.
  destruct (fetch turn _); auto using recordSuccess_agree, recordFailure_agree.
Qed.

Lemma checkService_other turn n entry r :
  entry.1 <> n -> agreeAt n r (checkService turn entry r).
Proof.
  intros Hne. unfold checkService.
  destruct (fetch turn _); auto using recordSuccess_other, recordFailure_other.
Qed.

Lemma NoDup_zip_fst {A B} (l : list A) (k : list B) :
  NoDup l -> NoDup (zip l k).*1.
Proof.
  revert k. induction l as [|x l IH]; intros k Hnodup; [constructor|].
  apply NoDup_cons in Hnodup as [Hfresh Hnodup].
  destruct k as [|y k]; [constructor|].
  cbn. apply NoDup_cons. split; [|by apply IH].
  intros Hin. apply list_elem_of_fmap in Hin as ([x' y'] & -> & Hin).
  apply Hfresh. by apply elem_of_zip_l in Hin.
Qed.

(** Probing the entries of a snapshot in turns, each name at most once,
    does to a name what its own turn alone does, and leaves alone the
    names without a turn and those the snapshot does not hold. *)
Lemma checkServices_fold (snapshot : gmap string ServiceInfo) n slots :
  forall r,
    NoDup slots.*1 ->
    let pass :=
      foldl (fun acc slot =>
               match snapshot !! slot.1 with
               | Some service => checkService slot.2 (slot.1, service) acc
               | None => acc
               end) r slots in
    (forall turn s,
       (n, turn) ∈ slots -> snapshot !! n = Some s ->
       agreeAt n (checkService turn (n, s) r) pass)
    /\ (n ∉ slots.*1 \/ snapshot !! n = None -> agreeAt n r pass).
Proof.
  induction slots as [|[n' turn'] slots IH]; intros r Hnodup pass.
  - split; [intros turn s Hin; by apply elem_of_nil in Hin|].
    intros _. apply agreeAt_refl.
  - cbn [fmap list_fmap fst] in Hnodup.
    apply NoDup_cons in Hnodup as [Hfresh Hnodup].
    unfold pass. cbn [foldl fst snd].
    set (r1 := match snapshot !! n' with
               | Some service => checkService turn' (n', service) r
               | None => r
               end).
    destruct (IH r1 Hnodup) as [IHin IHout].
    assert (Hother : n' <> n \/ snapshot !! n = None -> agreeAt n r r1).
    { intros Hcase. unfold r1.
      destruct (snapshot !! n') as [service|] eqn:Hservice;
        [|apply agreeAt_refl].
      apply checkService_other. cbn. intros ->.
      destruct Hcase as [Hne|Hnone]; [done | congruence]. }
    split.
    + intros turn s Hin Hs. apply elem_of_cons in Hin as [[= <- <-]|Hin].
      * assert (r1 = checkService turn (n, s) r) as <-
          by (unfold r1; by rewrite Hs).
        apply IHout. by left.
      * assert (n' <> n) as Hne.
        { intros ->. apply Hfresh. apply list_elem_of_fmap. by exists (n, turn). }
        eapply agreeAt_trans; [|by apply IHin].
        apply checkService_agree. apply Hother. by left.
    + intros Hcase.
      eapply agreeAt_trans; [apply Hother|apply IHout].
      * destruct Hcase as [Hout|Hnone]; [|by right].
        left. intros ->. apply Hout. cbn. apply elem_of_cons. by left.
      * destruct Hcase as [Hout|Hnone]; [|by right].
        left. intros Hin. apply Hout. cbn. apply elem_of_cons. by right.
Qed.

(** X11: a health-check pass over the registered names, each probed in
    its own turn, does to every service exactly what its own turn alone
    does to it (one [recordSuccess] when the fetch of that turn answers
    ok, one [recordFailure] otherwise, with the clock reads of that
    turn), whatever happens to the services probed before and after it;
    a name that has no turn or is not registered is left as it was. *)
Theorem checkAllServices_per_service order turns r :
  NoDup order ->
  (forall (i : nat) n turn s,
     order !! i = Some n ->
     turns !! i = Some turn ->
     services r !! n = Some s ->
     agreeAt n (checkService turn (n, s) r) (checkAllServices order turns r))
  /\ (forall n,
        n ∉ order \/ services r !! n = None ->
        agreeAt n r (checkAllServices order turns r)).
Proof.
  intros Hnodup. split.
  - intros i n turn s Hn Hturn Hs.
    destruct (checkServices_fold (services r) n (zip order turns) r
                (NoDup_zip_fst order turns Hnodup)) as [Hin _].
    apply (Hin turn s); [|done].
    apply (list_elem_of_lookup_2 _ i).
    apply lookup_zip_with_Some. by exists n, turn.
  - intros n Hcase.
    destruct (checkServices_fold (services r) n (zip order turns) r
                (NoDup_zip_fst order turns Hnodup)) as [_ Hout].
    apply Hout. destruct Hcase as [Hout'|Hnone]; [|by right].
    left. intros Hin. apply Hout'.
    apply list_elem_of_fmap in Hin as ([n' turn] & -> & Hin).
    by apply elem_of_zip_l in Hin.
Qed.

(** X22: after [registerCoreServices], each of the six core services
    resolves to the URL of its environment variable when that is set and
    not empty, and to [http://localhost:<default port>] otherwise; its
    circuit is closed and its status unknown, whatever the registry held
    before. *)
Theorem core_services_resolve env clock r n envKey port :
  (n, envKey, port) ∈ coreServices ->
  let r' := registerCoreServices env clock r in
  (forall now, getServiceUrl n now r' = (Some (coreUrl env envKey port), r'))
  /\ getCircuitState n r' = Some CLOSED
  /\ (status <$> services r' !! n) = Some UNKNOWN.
Proof.
  intros Hin r'.
  assert (Hs : services r' !! n
               = Some {| name := n; url := coreUrl env envKey port;
                         version := None; status := UNKNOWN;
                         lastCheck := clock n; consecutiveFailures := 0;
                         metadata := None |}
               /\ circuitBreakers r' !! n
                  = Some {| state := CLOSED; failures := 0; successes := 0;
                            lastFailureTime := None; nextRetryTime := None |}).
  { unfold r', registerCoreServices, coreServices in *. cbn [foldl fst snd].
    unfold register. cbn [services circuitBreakers set_services set_circuitBreakers].
    repeat (apply elem_of_cons in Hin as [[= -> -> ->]|Hin];
            [by simplify_map_eq|]).
    by apply elem_of_nil in Hin. }
  destruct Hs as [Hs Hc].
  split; [|split].
  - intros now. unfold getServiceUrl. by rewrite Hs, Hc.
  - unfold getCircuitState. by rewrite Hc.
  - by rewrite Hs.
Qed.

Lemma core_services_resolve_witness :
  (getServiceUrl "audit" 10
     (registerCoreServices {["AUDIT_SERVICE_URL" := ""]} (fun _ => 0)
        (newRegistry _DEFAULT_CIRCUIT_CONFIG))).1
  = Some "http://localhost:3002".
Proof.
  destruct (core_services_resolve {["AUDIT_SERVICE_URL" := ""]} (fun _ => 0)
              (newRegistry _DEFAULT_CIRCUIT_CONFIG)
              "audit" "AUDIT_SERVICE_URL" 3002) as [Hurl _].
  { unfold coreServices. apply elem_of_cons. right. apply elem_of_cons. by left. }
  rewrite Hurl. vm_compute. reflexivity.
Defined.

End RegistryFurther.

(** * Further properties of the job scheduler *)

Section StoreFurther.
Import Js Scheduler.

Lemma dispatchOrder_total : Total dispatchOrder.
Proof. intros j1 j2. unfold dispatchOrder. lia. Qed.

Lemma dispatchOrder_trans : Transitive dispatchOrder.
Proof. intros j1 j2 j3. unfold dispatchOrder. lia. Qed.

Lemma pendingOf_sorted (queue : JobQueue.t) (db : Db) :
  StronglySorted dispatchOrder
    (merge_sort dispatchOrder
       (filter (fun j => Job.queueId j = JobQueue.id queue ∧ Job.status j = pending)
          (job db))).
Proof.
  apply (@StronglySorted_merge_sort _ dispatchOrder _ dispatchOrder_trans
           dispatchOrder_total).
Qed.

(** X12: the pending jobs selected for a queue are pending jobs of that
    queue taken from the store, listed by priority descending and then
    creation time ascending; with a non-negative concurrency there are at
    most [concurrency] of them and every pending job of the queue that
    was left out comes no earlier in that order than each selected
    one. *)
Theorem findPendingJobs_dispatch_order (queue : JobQueue.t) (db : Db) :
  let selected := findPendingJobs queue db in
  StronglySorted dispatchOrder selected
  /\ (forall j, j ∈ selected ->
        j ∈ job db /\ Job.queueId j = JobQueue.id queue /\ Job.status j = pending)
  /\ (0 <= JobQueue.concurrency queue ->
      (length selected <= Z.to_nat (JobQueue.concurrency queue))%nat
      /\ forall j j',
           j ∈ selected ->
           j' ∈ job db ->
           Job.queueId j' = JobQueue.id queue ->
           Job.status j' = pending ->
           j' ∉ selected ->
           dispatchOrder j j').
Proof.
  intros selected. unfold selected, findPendingJobs, takeRows.
  pose proof (pendingOf_sorted queue db) as Hsorted.
  set (sorted := merge_sort dispatchOrder _) in *.
  assert (Hmem : forall j, j ∈ sorted <->
                   (Job.queueId j = JobQueue.id queue /\ Job.status j = pending)
                   /\ j ∈ job db).
  { intros j. unfold sorted. rewrite merge_sort_Permutation.
    by rewrite list_elem_of_filter. }
  split; [|split].
  - destruct (0 <=? JobQueue.concurrency queue).
    + rewrite <- (take_drop (Z.to_nat (JobQueue.concurrency queue)) sorted) in Hsorted.
      by apply StronglySorted_app_1_l in Hsorted.
    + rewrite <- (take_drop (length sorted - Z.to_nat (- JobQueue.concurrency queue))
                    sorted) in Hsorted.
      by apply StronglySorted_app_1_r in Hsorted.
  - intros j Hj.
    assert (j ∈ sorted) as Hin.
    { destruct (0 <=? JobQueue.concurrency queue);
        [by eapply subseteq_take | by eapply subseteq_drop]. }
    apply Hmem in Hin. destruct Hin as [[? ?] ?]. done.
  - intros Hconc. destruct (Z.leb_spec 0 (JobQueue.concurrency queue)); [|lia].
    split; [rewrite length_take; lia|].
    intros j j' Hj Hj' Hqueue Hpending Hout.
    assert (j' ∈ sorted) as Hin by (by apply Hmem).
    rewrite <- (take_drop (Z.to_nat (JobQueue.concurrency queue)) sorted) in Hin, Hsorted.
    apply elem_of_app in Hin as [Hin|Hin]; [done|].
    by eapply StronglySorted_app_1_elem_of.
Qed.

Lemma dueForPromotion_earlier now now' j :
  now' <= now -> dueForPromotion now j = false -> dueForPromotion now' j = false.
Proof.
  intros Hle. unfold dueForPromotion.
  destruct (bool_decide (Job.status j = delayed)); [|done]. cbn.
  destruct (Job.delayUntil j) as [d|]; [|done].
  rewrite !Z.leb_gt. lia.
Qed.

Lemma promoted_not_due now j : dueForPromotion now (promote j) = false.
Proof. done. Qed.

Lemma updateManyDelayed_none now (queues : list JobQueue.t) (jobs : list Job.t) :
  Forall (fun j => dueForPromotion now j = false) jobs ->
  updateManyDelayed now {| jobQueue := queues; job := jobs |}
  = (0, {| jobQueue := queues; job := jobs |}).
Proof.
  intros Hnone. unfold updateManyDelayed, set_job. cbn [job jobQueue].
  f_equal.
  - induction Hnone as [|j jobs Hj _ IH]; [done|].
    rewrite filter_cons. destruct (decide _) as [Hyes|_]; [congruence | done].
  - f_equal. induction Hnone as [|j jobs Hj _ IH]; [done|].
    cbn. rewrite Hj. by f_equal.
Qed.

(** X13: promotion is idempotent: after the delayed jobs due at [now]
    were promoted, a second promotion at the same or an earlier time
    updates no row and leaves the store as it is. *)
Theorem promotion_is_idempotent now now' (db : Db) :
  now' <= now ->
  updateManyDelayed now' (updateManyDelayed now db).2
  = (0, (updateManyDelayed now db).2).
Proof.
  intros Hle. unfold updateManyDelayed at 2 3. cbn [snd]. unfold set_job.
  apply updateManyDelayed_none.
  apply Forall_fmap, Forall_forall. intros j _. cbn.
  destruct (dueForPromotion now j) eqn:Hdue.
  - apply promoted_not_due.
  - by apply (dueForPromotion_earlier now).
Qed.

End StoreFurther.

Section DispatchFurther.
Import Js Scheduler.
Context `{JobsService} (svc : Services).

(** X14: a job whose handler throws is marked failed with the message of
    the thrown error, never completed, and the failure does not escape
    the loop body: the loop goes on with the next job. *)
Theorem failed_job_is_marked_failed job error w d1 d2 :
  markJobActive (Job.id job) (db w) = Returned d1 ->
  executeJob svc job = Thrown error ->
  markJobFailed (Job.id job) (message error) (stack error) d1 = Returned d2 ->
  processJob svc job w
  = (Returned tt,
     {| isRunning := isRunning w; db := d2;
        calls := calls w ++ [MarkJobActive (Job.id job); ExecuteJob (Job.id job);
                             MarkJobFailed (Job.id job) (message error)] |}).
Proof.
  intros Hactive Hexec Hfailed.
  unfold processJob, tryCatch, bind, call, updateDb, await. cbn.
  rewrite Hactive. cbn. rewrite Hexec. cbn. rewrite Hfailed. cbn.
  by rewrite <- !app_assoc.
Qed.

(** X15: a job whose claim is rejected by the store is never handed to
    its handler: the loop body goes straight to [markJobFailed] with the
    message of the rejection, and rejects itself only if that call is
    rejected too. *)
Theorem rejected_claim_is_not_executed job error w :
  markJobActive (Job.id job) (db w) = Thrown error ->
  let after := processJob svc job w in
  calls after.2
  = calls w ++ [MarkJobActive (Job.id job);
                MarkJobFailed (Job.id job) (message error)]
  /\ match markJobFailed (Job.id job) (message error) (stack error) (db w) with
     | Returned d => after.1 = Returned tt /\ db after.2 = d
     | Thrown e => after.1 = Thrown e /\ db after.2 = db w
     end.
Proof.
  intros Hactive after. unfold after.
  unfold processJob, tryCatch, bind, call, updateDb, await. cbn.
  rewrite Hactive. cbn.
  destruct (markJobFailed _ _ _ _); cbn; by rewrite <- !app_assoc.
Qed.

(** Whatever happens to it, the loop body claims its job exactly once. *)
Lemma processJob_claims_once job w :
  exists events,
    calls (processJob svc job w).2 = calls w ++ events
    /\ claimed events = [Job.id job].
Proof.
  unfold processJob, tryCatch, bind, call, updateDb, await. cbn.
  destruct (markJobActive _ _) as [d1|e1]; cbn.
  - destruct (executeJob svc job) as [r|e2]; cbn.
    + destruct (markJobCompleted _ _ _) as [d2|e3]; cbn.
      * eexists. rewrite <- !app_assoc. by split.
      * destruct (markJobFailed _ _ _ _); cbn;
          eexists; rewrite <- !app_assoc; by split.
    + destruct (markJobFailed _ _ _ _); cbn;
        eexists; rewrite <- !app_assoc; by split.
  - destruct (markJobFailed _ _ _ _); cbn;
      eexists; rewrite <- !app_assoc; by split.
Qed.

Lemma claimed_app events1 events2 :
  claimed (events1 ++ events2) = claimed events1 ++ claimed events2.
Proof. apply omap_app. Qed.

Lemma forEach_processJob_claims jobs : forall w,
  exists events,
    calls (forEach jobs (processJob svc) w).2 = calls w ++ events
    /\ claimed events `prefix_of` (Job.id <$> jobs)
    /\ ((forEach jobs (processJob svc) w).1 = Returned tt ->
        claimed events = Job.id <$> jobs).
Proof.
  induction jobs as [|job jobs IH]; intros w.
  - exists []. cbn. rewrite app_nil_r. by repeat split.
  - cbn [forEach]. unfold bind.
    destruct (processJob_claims_once job w) as (events1 & Hcalls1 & Hclaimed1).
    destruct (processJob svc job w) as [[[]|e] w1] eqn:Hjob; cbn in Hcalls1.
    + destruct (IH w1) as (events2 & Hcalls2 & Hprefix & Hall).
      exists (events1 ++ events2).
      rewrite Hcalls2, Hcalls1, claimed_app, Hclaimed1, <- app_assoc.
      split; [done|]. cbn. split.
      * by apply prefix_cons.
      * intros Hdone. by rewrite Hall.
    + exists events1. cbn. rewrite Hclaimed1. split; [done|]. split; [|done].
      apply prefix_cons, prefix_nil.
Qed.

(** X16: in one pass over a queue the scheduler claims jobs in dispatch
    order and each at most once: the claimed ids are an initial segment
    of the ids of the selected pending jobs, all of them when the pass
    completes, and with a non-negative concurrency never more than
    [concurrency] of them. *)
Theorem processQueueJobs_claims_in_order queue w :
  exists events,
    calls (processQueueJobs svc queue w).2 = calls w ++ events
    /\ claimed events `prefix_of` (Job.id <$> findPendingJobs queue (db w))
    /\ ((processQueueJobs svc queue w).1 = Returned tt ->
        claimed events = Job.id <$> findPendingJobs queue (db w))
    /\ (0 <= JobQueue.concurrency queue ->
        (length (claimed events) <= Z.to_nat (JobQueue.concurrency queue))%nat).
Proof.
  assert (Hbound : 0 <= JobQueue.concurrency queue ->
                   (length (findPendingJobs queue (db w))
                    <= Z.to_nat (JobQueue.concurrency queue))%nat).
  { intros Hconc. unfold findPendingJobs, takeRows.
    destruct (Z.leb_spec 0 (JobQueue.concurrency queue)); [|lia].
    rewrite length_take. lia. }
  unfold processQueueJobs, bind, call, readDb. cbn.
  set (w1 := {| isRunning := isRunning w; db := db w;
                calls := calls w ++ [JobFindMany (JobQueue.id queue)] |}).
  destruct (decide (length (findPendingJobs queue (db w)) = 0%nat)) as [Hnone|Hsome].
  - exists [JobFindMany (JobQueue.id queue)]. cbn.
    apply nil_length_inv in Hnone. rewrite Hnone. cbn.
    split; [done|]. split; [done|]. split; [done|]. intros _. apply Nat.le_0_l.
  - destruct (forEach_processJob_claims (findPendingJobs queue (db w)) w1)
      as (events & Hcalls & Hprefix & Hall).
    exists (JobFindMany (JobQueue.id queue) :: events).
    rewrite Hcalls. cbn. rewrite <- app_assoc.
    split; [done|]. split; [done|]. split; [done|].
    intros Hconc. apply prefix_length in Hprefix.
    rewrite length_fmap in Hprefix. specialize (Hbound Hconc).
    unfold claimed in Hprefix. lia.
Qed.

Lemma bind_Returned {A B} (m : Outcome A) (f : A -> Outcome B) b :
  m ≫= f = Returned b -> exists a, m = Returned a /\ f a = Returned b.
Proof. destruct m as [a|e]; [|done]. intros Hf. by exists a. Qed.

Lemma rethrow_Returned {A} (m : Outcome A) a : rethrow m = Returned a -> m = Returned a.
Proof. by destruct m. Qed.

(** X17: the mock tag is truthful: whenever a job executes to a result
    tagged [isMockMode: true], its type is one of the ten backed by an
    optional service and that service was not injected. *)
Theorem mock_tag_means_absent_service job r :
  executeJob svc job = Returned r ->
  JobResult.isMockMode r = Some true ->
  backingService svc (Job.name job) = Some false.
Proof.
  unfold executeJob, backingService.
  destruct job as [i q name data st prio att maxAtt du le res created].
  cbn [Job.name Job.data].
  repeat case_decide; simplify_eq; intros Hexec Hmock.
  all: unfold runEvidenceCollector, sendScheduledNotifications, sendEmail,
         syncJira, syncServiceNow, generateExport, generateReport,
         cleanupExpiredSessions, cleanupOldAuditLogs, runRetentionPolicies,
         refreshSearchIndexes, deliverWebhook in Hexec.
  all: repeat match type of Hexec with
         | rethrow _ = Returned _ => apply rethrow_Returned in Hexec
         | _ ≫= _ = Returned _ =>
             apply bind_Returned in Hexec as (? & ? & Hexec)
         | match ?s svc with _ => _ end = _ => destruct (s svc) eqn:?
         | match ?m with Returned _ => _ | Thrown _ => _ end = _ => destruct m eqn:?
         | Returned _ = Returned _ => injection Hexec as <-
         | mret _ = Returned _ => injection Hexec as <-
         end.
  all: try done.
Qed.


End DispatchFurther.

(** * The further theorems on the samples *)

Section FurtherSamples.
Import Js Registry Scheduler.

Lemma half_open_closes_at_successThreshold_witness :
  getCircuitState "reports" (recordSuccesses "reports" [40001] reportsHalfOpen)
  = Some HALF_OPEN
  /\ getCircuitState "reports"
       (recordSuccesses "reports" ([40001] ++ [40002]) reportsHalfOpen)
     = Some CLOSED.
Proof.
  assert (Hc : circuitBreakers reportsHalfOpen !! "reports"
               = Some {| state := HALF_OPEN; failures := 5; successes := 0;
                         lastFailureTime := Some 5;
                         nextRetryTime := Some 30005 |})
    by (vm_compute; reflexivity).
  destruct (half_open_closes_at_successThreshold "reports" reportsHalfOpen _
              Hc eq_refl)
    as [Hbelow Hreach].
  destruct (Hbelow [40001]) as (c1 & Hc1 & Hs1 & _); [vm_compute; reflexivity|].
  destruct (Hreach [40001] 40002) as (c2 & Hc2 & Hs2 & _);
    [vm_compute; reflexivity|].
  unfold getCircuitState. rewrite Hc1, Hc2. cbn [fmap option_fmap option_map].
  rewrite Hs1, Hs2. split; reflexivity.
Defined.

Lemma success_resets_failure_count_witness :
  exists c',
    circuitBreakers
      (recordFailures "reports" (clockAt <$> [11; 12; 13; 14])
         (recordSuccess "reports" 10
            (recordFailures "reports" (clockAt <$> [1; 2; 3; 4]) reportsRegistry)))
      !! "reports" = Some c'
    /\ state c' = CLOSED
    /\ failures c' = 4.
Proof.
  assert (Hc : circuitBreakers
                 (recordFailures "reports" (clockAt <$> [1; 2; 3; 4])
                    reportsRegistry) !! "reports"
               = Some {| state := CLOSED; failures := 4; successes := 0;
                         lastFailureTime := Some 4; nextRetryTime := None |})
    by (vm_compute; reflexivity).
  destruct (success_resets_failure_count "reports" 10
              (clockAt <$> [11; 12; 13; 14]) _ _ Hc eq_refl)
    as (c' & Hc' & Hst & Hf); [vm_compute; reflexivity|].
  exists c'. split; [exact Hc'|]. split; [exact Hst | exact Hf].
Defined.

Lemma trip_and_recover_witness :
  getServiceUrl "reports" 30004 reportsOpen = (None, reportsOpen)
  /\ getCircuitState "reports"
       (recordSuccesses "reports" ([40001] ++ [40002])
          (getServiceUrl "reports" 40000 reportsOpen).2)
     = Some CLOSED.
Proof.
  destruct (trip_and_recover "reports" reportsRegistry
              {| name := "reports"; url := "http://localhost:3007";
                 version := None; status := UNKNOWN; lastCheck := 0;
                 consecutiveFailures := 0; metadata := None |}
              {| state := CLOSED; failures := 0; successes := 0;
                 lastFailureTime := None; nextRetryTime := None |}
              (clockAt <$> [1; 2; 3; 4]) (clockAt 5) [40001] 40002 40000)
    as (Hbefore & _ & _ & Hclosed & _); try (vm_compute; reflexivity).
  { vm_compute. discriminate. }
  split; [apply Hbefore; vm_compute; reflexivity | exact Hclosed].
Defined.

Lemma checkAllServices_per_service_witness :
  let first := checkAllServices ["reports"; "billing"]
                 [rejectedAt 50; answeredAt 60] twoServices in
  let second := checkAllServices ["billing"; "reports"]
                  [answeredAt 50; rejectedAt 60] twoServices in
  ((status <$> services first !! "reports") = Some UNHEALTHY
   /\ (lastCheck <$> services first !! "reports") = Some 50
   /\ (status <$> services first !! "billing") = Some HEALTHY
   /\ (lastCheck <$> services first !! "billing") = Some 60)
  /\ ((status <$> services second !! "reports") = Some UNHEALTHY
      /\ (lastCheck <$> services second !! "reports") = Some 60
      /\ (status <$> services second !! "billing") = Some HEALTHY
      /\ (lastCheck <$> services second !! "billing") = Some 50).
Proof.
  intros first second.
  assert (Hfirst : NoDup ["reports"; "billing"]).
  { apply NoDup_cons. split; [|apply NoDup_singleton].
    intros Hin. apply list_elem_of_singleton in Hin. discriminate Hin. }
  assert (Hsecond : NoDup ["billing"; "reports"]).
  { apply NoDup_cons. split; [|apply NoDup_singleton].
    intros Hin. apply list_elem_of_singleton in Hin. discriminate Hin. }
  assert (Hreports : services twoServices !! "reports"
            = Some {| name := "reports"; url := "http://localhost:3007";
                      version := None; status := UNHEALTHY; lastCheck := 5;
                      consecutiveFailures := 5; metadata := None |})
    by (vm_compute; reflexivity).
  assert (Hbilling : services twoServices !! "billing"
            = Some {| name := "billing"; url := "http://localhost:3008";
                      version := None; status := UNKNOWN; lastCheck := 7;
                      consecutiveFailures := 0; metadata := None |})
    by (vm_compute; reflexivity).
  pose proof (proj1 (checkAllServices_per_service ["reports"; "billing"]
                       [rejectedAt 50; answeredAt 60] twoServices Hfirst))
    as Hone.
  pose proof (proj1 (checkAllServices_per_service ["billing"; "reports"]
                       [answeredAt 50; rejectedAt 60] twoServices Hsecond))
    as Htwo.
  destruct (Hone 0%nat _ _ _ eq_refl eq_refl Hreports) as (Hr1 & _).
  destruct (Hone 1%nat _ _ _ eq_refl eq_refl Hbilling) as (Hb1 & _).
  destruct (Htwo 1%nat _ _ _ eq_refl eq_refl Hreports) as (Hr2 & _).
  destruct (Htwo 0%nat _ _ _ eq_refl eq_refl Hbilling) as (Hb2 & _).
  fold first in Hr1, Hb1. fold second in Hr2, Hb2.
  rewrite <- Hr1, <- Hb1, <- Hr2, <- Hb2.
  split; (split; [vm_compute; reflexivity|]; split; [vm_compute; reflexivity|];
          split; vm_compute; reflexivity).
Defined.

Lemma promotion_is_idempotent_witness :
  updateManyDelayed 600 (updateManyDelayed 700 sampleDb).2
  = (0, (updateManyDelayed 700 sampleDb).2).
Proof. apply promotion_is_idempotent. lia. Defined.

Lemma failed_job_is_marked_failed_witness :
  calls (@processJob sampleJobsService noServices nullEmailJob
           {| isRunning := true; db := nullPayloadDb; calls := [] |}).2
  = [MarkJobActive "j5"; ExecuteJob "j5";
     MarkJobFailed "j5" "Cannot read properties of null"].
Proof.
  erewrite (@failed_job_is_marked_failed sampleJobsService noServices
              nullEmailJob (TypeError "Cannot read properties of null"));
    [reflexivity | vm_compute; reflexivity | reflexivity | vm_compute; reflexivity].
Defined.

Lemma rejected_claim_is_not_executed_witness :
  calls (@processJob sampleJobsService noServices nullEmailJob
           {| isRunning := true; db := sampleDb; calls := [] |}).2
  = [MarkJobActive "j5"; MarkJobFailed "j5" "Record to update not found"].
Proof.
  apply (@rejected_claim_is_not_executed sampleJobsService noServices
           nullEmailJob
           {| message := "Record to update not found"; stack := None |}
           {| isRunning := true; db := sampleDb; calls := [] |}).
  vm_compute; reflexivity.
Defined.

Lemma mock_tag_means_absent_service_witness :
  backingService noServices (Job.name emailJob) = Some false.
Proof.
  apply (mock_tag_means_absent_service noServices emailJob
           (mockResult "sent" [("to", JsStr "ops@example.org")]
              "EmailService not injected")); reflexivity.
Defined.


End FurtherSamples.

(** * Properties of the email service *)

Section EmailTheory.
Import Js Email.

Lemma missing_false value :
  missing value = false -> exists s, value = Some s /\ s <> "".
Proof.
  destruct value as [s|]; [|done]. cbn. intros Hs. exists s. split; [done|].
  intros ->. done.
Qed.

(** X19: whatever the configuration, a constructed email service is in
    one of four provider modes and never left as ['unknown']; it is in
    console mode exactly when its provider is ['console'], exactly when
    its transport is the stream transport, and exactly when a console
    reason is recorded; [isConfigured] is the negation of console mode;
    and an SMTP transport always has a non-empty host, user and
    password. *)
Theorem email_service_status_consistent (config : Config) :
  let service := initializeTransporter config in
  let st := getStatus service in
  provider st ∈ ["console"; "sendgrid"; "ses"; "smtp"]
  /\ (isConsoleMode st = true <-> provider st = "console")
  /\ (isConsoleMode st = true <-> transporter service = StreamTransport)
  /\ (isConsoleMode st = true <-> is_Some (consoleReason st))
  /\ isConfigured st = negb (isConsoleMode st)
  /\ match transporter service with
     | StreamTransport => True
     | SmtpTransport host _ _ user pass => host <> "" /\ user <> "" /\ pass <> ""
     end.
Proof.
  intros service st. unfold st, service, initializeTransporter, getStatus.
  repeat case_decide; cbn.
  - split; [set_solver|]. by repeat split; eauto.
  - destruct (missing (config !! "SENDGRID_API_KEY")) eqn:Hkey; cbn.
    + split; [set_solver|]. by repeat split; eauto.
    + apply missing_false in Hkey as (key & -> & Hkey). cbn.
      split; [set_solver|].
      repeat split; try done; try (by intros [? ?]).
  - destruct (missing (config !! "AWS_ACCESS_KEY_ID")) eqn:Hid; cbn.
    { split; [set_solver|]. by repeat split; eauto. }
    destruct (missing (config !! "AWS_SECRET_ACCESS_KEY")) eqn:Hsecret; cbn.
    { split; [set_solver|]. by repeat split; eauto. }
    apply missing_false in Hid as (id & -> & Hid).
    apply missing_false in Hsecret as (secret & -> & Hsecret). cbn.
    split; [set_solver|].
    repeat split; try done; try (by intros [? ?]).
  - destruct (missing (config !! "SMTP_HOST")) eqn:Hhost; cbn.
    { split; [set_solver|]. by repeat split; eauto. }
    destruct (missing (config !! "SMTP_USER")) eqn:Huser; cbn.
    { split; [set_solver|]. by repeat split; eauto. }
    destruct (missing (config !! "SMTP_PASS")) eqn:Hpass; cbn.
    { split; [set_solver|]. by repeat split; eauto. }
    apply missing_false in Hhost as (host & -> & Hhost).
    apply missing_false in Huser as (user & -> & Huser).
    apply missing_false in Hpass as (pass & -> & Hpass). cbn.
    split; [set_solver|].
    repeat split; try done; try (by intros [? ?]).
Qed.

Lemma containsGT_cons c rest :
  containsGT (c :: rest) = N.eqb c GT || containsGT rest.
Proof.
  unfold containsGT. destruct (N.eqb_spec c GT) as [->|Hne]; cbn.
  - apply bool_decide_eq_true. by left.
  - apply bool_decide_ext. rewrite elem_of_cons.
    split; [intros [Heq|Hin]; [by subst | done] | by right].
Qed.

(** What a pass keeps is a subsequence: it cannot bring in a ['>']. *)
Lemma replaceTags_containsGT s : forall inside,
  containsGT s = false -> containsGT (replaceTags inside s) = false.
Proof.
  induction s as [|c rest IH]; intros inside; [done|].
  rewrite containsGT_cons. intros [Hc Hrest]%orb_false_iff.
  cbn [replaceTags]. rewrite Hc, Hrest, andb_false_r.
  destruct inside; [by apply IH|].
  rewrite containsGT_cons, Hc. by apply IH.
Qed.

Lemma replaceTags_no_tag s : forall inside, hasTag (replaceTags inside s) = false.
Proof.
  induction s as [|c rest IH]; intros inside; [done|].
  cbn [replaceTags]. destruct inside.
  - destruct (N.eqb c GT); apply IH.
  - destruct (N.eqb c LT && containsGT rest) eqn:Htest; [apply IH|].
    cbn [hasTag]. rewrite IH, orb_false_r.
    apply andb_false_iff in Htest as [Hc|Hrest]; [by rewrite Hc|].
    by rewrite replaceTags_containsGT, andb_false_r.
Qed.

Lemma replaceTags_fixed s : hasTag s = false -> replaceTags false s = s.
Proof.
  induction s as [|c rest IH]; [done|].
  cbn [hasTag replaceTags]. intros [Htest Hrest]%orb_false_iff.
  rewrite Htest. f_equal. by apply IH.
Qed.

Lemma stripLoop_one_pass html : stripLoop [] html = replaceTags false html.
Proof.
  pose proof (replaceTags_fixed _ (replaceTags_no_tag html false)) as Hfix.
  rewrite stripLoop_equation_1.
  destruct (decide (html = [])) as [->|Hne]; [done|]. cbn.
  rewrite stripLoop_equation_1.
  destruct (decide (replaceTags false html = html)) as [Heq|Hchanged]; [done|].
  cbn. rewrite stripLoop_equation_1.
  destruct (decide (replaceTags false (replaceTags false html)
                    = replaceTags false html)); [done | congruence].
Qed.

Lemma hasTag_suffix s1 s2 : hasTag (s1 ++ s2) = false -> hasTag s2 = false.
Proof.
  induction s1 as [|c s1 IH]; [done|]. cbn [app hasTag].
  intros [_ Hrest]%orb_false_iff. by apply IH.
Qed.

Lemma containsGT_app s1 s2 :
  containsGT (s1 ++ s2) = containsGT s1 || containsGT s2.
Proof.
  induction s1 as [|c s1 IH]; [done|].
  cbn [app]. rewrite !containsGT_cons, IH. by rewrite orb_assoc.
Qed.

Lemma hasTag_prefix s1 s2 : hasTag (s1 ++ s2) = false -> hasTag s1 = false.
Proof.
  induction s1 as [|c s1 IH]; [done|]. cbn [app hasTag].
  rewrite containsGT_app. intros [Htest Hrest]%orb_false_iff.
  rewrite (IH Hrest), orb_false_r.
  apply andb_false_iff in Htest as [Hc|Hgt]; [by rewrite Hc|].
  apply orb_false_iff in Hgt as [-> _]. by rewrite andb_false_r.
Qed.

Lemma trimStart_suffix s : exists dropped, s = dropped ++ trimStart s.
Proof.
  induction s as [|c rest [dropped IH]]; [by exists []|].
  cbn [trimStart]. destruct (isWhiteSpace c).
  - exists (c :: dropped). cbn. by rewrite <- IH.
  - by exists [].
Qed.

Lemma trimEnd_prefix s : exists dropped, s = trimEnd s ++ dropped.
Proof.
  unfold trimEnd. destruct (trimStart_suffix (reverse s)) as [dropped Hs].
  exists (reverse dropped).
  rewrite <- reverse_app, <- Hs. by rewrite reverse_involutive.
Qed.

Lemma trim_no_tag s : hasTag s = false -> hasTag (trim s) = false.
Proof.
  intros Hs. unfold trim.
  destruct (trimStart_suffix s) as [d1 H1].
  destruct (trimEnd_prefix (trimStart s)) as [d2 H2].
  rewrite H1 in Hs. apply hasTag_suffix in Hs.
  rewrite H2 in Hs. by apply hasTag_prefix in Hs.
Qed.

Lemma hasTag_positions s : forall i j,
  hasTag s = false ->
  s !! i = Some LT ->
  s !! j = Some GT ->
  (j <= i)%nat.
Proof.
  induction s as [|c rest IH]; intros i j; [done|].
  cbn [hasTag]. intros [Htest Hrest]%orb_false_iff Hi Hj.
  destruct i as [|i], j as [|j]; cbn in Hi, Hj; try lia.
  - injection Hi as ->. cbn in Htest.
    assert (containsGT rest = true) as Hgt.
    { apply bool_decide_eq_true. by eapply list_elem_of_lookup_2. }
    congruence.
  - specialize (IH i j Hrest Hi Hj). lia.
Qed.

(** X20: no tag survives [stripHtml]: in its result no ['<'] is followed,
    at any distance, by a ['>'], so the pattern [<...>] matches nowhere;
    in particular nested input such as [<sc<script>ript>] cannot leave a
    tag behind. *)
Theorem stripHtml_leaves_no_tag (html : list N) :
  hasTag (stripHtml html) = false
  /\ forall i j,
       stripHtml html !! i = Some LT ->
       stripHtml html !! j = Some GT ->
       (j <= i)%nat.
Proof.
  assert (Hno : hasTag (stripHtml html) = false).
  { unfold stripHtml. rewrite stripLoop_one_pass.
    apply trim_no_tag, replaceTags_no_tag. }
  split; [done|]. intros i j. by apply hasTag_positions.
Qed.

(** X21: the first replacement pass already reaches the fixed point of
    the loop: a second pass changes nothing, so [stripHtml] is one pass
    followed by [trim]; and a string in which no ['<'] is followed by a
    ['>'] (plain text, also with stray ['<'] or ['>']) is only
    trimmed. *)
Theorem stripHtml_is_one_pass (html : list N) :
  replaceTags false (replaceTags false html) = replaceTags false html
  /\ stripHtml html = trim (replaceTags false html)
  /\ (hasTag html = false -> stripHtml html = trim html).
Proof.
  split; [apply replaceTags_fixed, replaceTags_no_tag|].
  split; [unfold stripHtml; by rewrite stripLoop_one_pass|].
  intros Hplain. unfold stripHtml.
  by rewrite stripLoop_one_pass, replaceTags_fixed.
Qed.

End EmailTheory.
